(** * Elementary cellular automaton: a shallow embedding of
    [cellular_automaton.js] and the properties of its engine.

    The class [ElementaryCellularAutomaton] is embedded with its arrays on an
    explicit heap: JavaScript arrays are objects handled by reference, and the
    methods hand references to their callers.  Rule numbers, cells and
    indices are integers; [width], which the constructor accepts as soon as
    it is above [0], is an exact rational, so that a call such as
    [new ElementaryCellularAutomaton(90, 2.5)] can be written down.  The model
    has no rounding, no [Infinity], and no bound on the length of an array:
    it is exact for integers of magnitude below [2^53] and for arrays of
    fewer than [2^32] elements, and the statements that depend on either
    bound carry it as a hypothesis. *)

From Stdlib Require Import ZArith QArith Qcanon Qround String Ascii Lia.
From stdpp Require Import base numbers list gmap.

Local Open Scope Z_scope.

(** ** JavaScript values, strings and arrays *)

Module JS.

(** The values an array of the program can hold: a number (an integer in this
    model), [NaN], or [undefined] (also what reading a hole yields). *)
Inductive value :=
  | Num (z : Z)
  | NaN
  | Undefined.

#[global] Instance value_eq_dec : EqDecision value.
Proof. solve_decision. Defined.

#[global] Instance value_inhabited : Inhabited value := populate Undefined.

Definition is_bit (v : value) : Prop := v = Num 0 ∨ v = Num 1.

#[global] Instance is_bit_dec v : Decision (is_bit v).
Proof. unfold is_bit. apply _. Defined.

(** *** Strings *)

(** Binary digits of a positive number, most significant first, put in front
    of [acc]. *)
Fixpoint pos_digits2 (p : positive) (acc : string) : string :=
  match p with
  | xH => String "1" acc
  | xO p' => pos_digits2 p' (String "0" acc)
  | xI p' => pos_digits2 p' (String "1" acc)
  end.

(** [n.toString(2)] for an integer [n]. *)
Definition toString2 (n : Z) : string :=
  match n with
  | Z0 => "0"
  | Zpos p => pos_digits2 p ""
  | Zneg p => String "-" (pos_digits2 p "")
  end.

Fixpoint repeat_char (n : nat) (c : ascii) (s : string) : string :=
  match n with
  | O => s
  | S n' => String c (repeat_char n' c s)
  end.

(** [s.padStart(len, c)] for a one-character filler [c]. *)
Definition padStart (s : string) (len : nat) (c : ascii) : string :=
  repeat_char (len - String.length s) c s.

(** [s.split('')]: the characters of [s], one string each. *)
Definition split_chars (s : string) : list ascii := list_ascii_of_string s.

(** [Number(c)] for a one-character string [c].  [toString(2)] of an integer
    only yields the characters ['0'], ['1'] and ['-']. *)
Definition Number (c : ascii) : value :=
  match c with
  | "0"%char => Num 0
  | "1"%char => Num 1
  | _ => NaN
  end.

(** Decimal digits of a positive number, by repeated division; [fuel] bounds
    the number of digits. *)
Definition digit_char (d : Z) : ascii := ascii_of_nat (48 + Z.to_nat d).

Fixpoint dec_digits (fuel : nat) (n : Z) (acc : string) : string :=
  match fuel with
  | O => acc
  | S fuel' =>
      let acc' := String (digit_char (n mod 10)) acc in
      if n / 10 =? 0 then acc' else dec_digits fuel' (n / 10) acc'
  end.

Definition toString10 (n : Z) : string :=
  match n with
  | Z0 => "0"
  | Zpos p => dec_digits (Pos.to_nat (Pos.size p)) n ""
  | Zneg p => String "-" (dec_digits (Pos.to_nat (Pos.size p)) (Zpos p) "")
  end.

(** What a template literal [`${v}`] renders a value as.  An integer is
    printed with all its decimal digits, as JavaScript prints the integers
    of magnitude up to [2^53]. *)
Definition to_string (v : value) : string :=
  match v with
  | Num z => toString10 z
  | NaN => "NaN"
  | Undefined => "undefined"
  end.

(** The longest prefix of binary digits of [s], read as a number; [acc] is
    [None] as long as no digit has been read. *)
Fixpoint parse_digits2 (s : string) (acc : option Z) : option Z :=
  match s with
  | String "0" s' => parse_digits2 s' (Some (2 * default 0 acc))
  | String "1" s' => parse_digits2 s' (Some (2 * default 0 acc + 1))
  | _ => acc
  end.

(** [parseInt(s, 2)]: an optional sign, then the longest prefix of binary
    digits; [NaN] when there is none.  The strings parsed by the program are
    renderings of values and carry no leading white space. *)
Definition parseInt2 (s : string) : value :=
  match s with
  | String "-" s' =>
      match parse_digits2 s' None with Some n => Num (- n) | None => NaN end
  | String "+" s' =>
      match parse_digits2 s' None with Some n => Num n | None => NaN end
  | _ =>
      match parse_digits2 s None with Some n => Num n | None => NaN end
  end.

(** [a - b] on numbers. *)
Definition sub (a b : value) : value :=
  match a, b with
  | Num x, Num y => Num (x - y)
  | _, _ => NaN
  end.

(** *** Numbers that need not be integers *)

(** [x <= y], [x < y] and [x === y] on rationals. *)
Definition leb (x y : Qc) : bool := Qle_bool x y.
Definition ltb (x y : Qc) : bool := negb (Qle_bool y x).
Definition eqb (x y : Qc) : bool := Qeq_bool x y.

Definition is_integer (q : Qc) : bool := (Qden q =? 1)%positive.

(** [Math.floor(q)]. *)
Definition floor (q : Qc) : Z := Qfloor q.

(** The length of an array, as a number. *)
Definition length (arr : list value) : Qc := Qc_of_Z (Z.of_nat (List.length arr)).

(** *** Exceptions *)

Inductive exn :=
  | Error (msg : string)   (* [throw new Error(msg)] *)
  | RangeError             (* an invalid array length *)
  | TypeError.             (* an access through a reference to nothing *)

Inductive result (A : Type) :=
  | Ok (x : A)
  | Throw (e : exn).
Arguments Ok {A} x.
Arguments Throw {A} e.

#[global] Instance result_ret : MRet result := λ A x, Ok x.
#[global] Instance result_bind : MBind result := λ A B f m,
  match m with Ok x => f x | Throw e => Throw e end.

(** *** Arrays *)

(** [Array(n)]: [n] holes; a [RangeError] unless [n] is a non-negative
    integer.  JavaScript also throws it from [n = 2^32] on; that limit is
    not part of the model, and the statements in which [Array] has to
    succeed are about lengths below [2^32]. *)
Definition Array (n : Qc) : result (list value) :=
  if is_integer n && (0 <=? Qnum n) then
    Ok (replicate (Z.to_nat (Qnum n)) Undefined)
  else Throw RangeError.

(** [arr[k]] for a number [k]: the element, or [undefined] out of range. *)
Definition get (arr : list value) (k : value) : value :=
  match k with
  | Num i => if bool_decide (0 ≤ i) then default Undefined (arr !! Z.to_nat i)
             else Undefined
  | _ => Undefined
  end.

(** [arr[i] = v] for an integer [i]: in range the element is replaced, beyond
    the end the array grows with holes in between, and a negative [i] names a
    property that is no element. *)
Definition set (arr : list value) (i : Z) (v : value) : list value :=
  if bool_decide (i < 0) then arr
  else if bool_decide (Z.to_nat i < List.length arr)%nat then
    <[Z.to_nat i := v]> arr
  else arr ++ replicate (Z.to_nat i - List.length arr) Undefined ++ [v].

(** [arr.fill(v)]. *)
Definition fill (arr : list value) (v : value) : list value :=
  replicate (List.length arr) v.

(** [arr.slice(0, e)] for a number [0 <= e], which is first truncated. *)
Definition slice0 (arr : list value) (e : Qc) : list value :=
  take (Z.to_nat (floor e)) arr.

(** [x % y] on integers: the remainder has the sign of [x]. *)
Definition rem (x y : Z) : Z := Z.rem x y.

End JS.

(** ** The heap of arrays *)

Definition loc := positive.

Abbreviation store := (gmap loc (list JS.value)).

(** Computations that read and update the heap and may throw. *)
Definition M (A : Type) : Type := store → JS.result (A * store).

#[global] Instance M_ret : MRet M := λ A x σ, JS.Ok (x, σ).
#[global] Instance M_bind : MBind M := λ A B f m σ,
  match m σ with
  | JS.Ok (x, σ') => f x σ'
  | JS.Throw e => JS.Throw e
  end.

Definition throw {A} (e : JS.exn) : M A := λ _, JS.Throw e.

Definition lift {A} (r : JS.result A) : M A := λ σ,
  match r with JS.Ok x => JS.Ok (x, σ) | JS.Throw e => JS.Throw e end.

(** A new array object with the given elements. *)
Definition alloc (arr : list JS.value) : M loc := λ σ,
  let l := fresh (dom σ) in JS.Ok (l, <[l := arr]> σ).

(** The elements of the array behind a reference. *)
Definition load (l : loc) : M (list JS.value) := λ σ,
  match σ !! l with
  | Some arr => JS.Ok (arr, σ)
  | None => JS.Throw JS.TypeError
  end.

(** [l[k]]. *)
Definition read (l : loc) (k : JS.value) : M JS.value :=
  arr ← load l; mret (JS.get arr k).

(** [l[i] = v]. *)
Definition write (l : loc) (i : Z) (v : JS.value) : M unit := λ σ,
  match σ !! l with
  | Some arr => JS.Ok (tt, <[l := JS.set arr i v]> σ)
  | None => JS.Throw JS.TypeError
  end.

(** Whether [arr[k]] names an element of [arr]. *)
Definition in_range (arr : list JS.value) (k : JS.value) : bool :=
  match k with
  | JS.Num i => (0 <=? i) && (i <? Z.of_nat (List.length arr))
  | _ => false
  end.

(** The same two accesses under watch: outside the array they throw, where
    JavaScript reads [undefined] or grows the array. *)
Definition read_strict (l : loc) (k : JS.value) : M JS.value :=
  arr ← load l;
  if in_range arr k then mret (JS.get arr k) else throw JS.RangeError.

Definition write_strict (l : loc) (i : Z) (v : JS.value) : M unit := λ σ,
  match σ !! l with
  | Some arr =>
      if in_range arr (JS.Num i) then JS.Ok (tt, <[l := JS.set arr i v]> σ)
      else JS.Throw JS.RangeError
  | None => JS.Throw JS.TypeError
  end.

(** [for (let i = start; ...; i++) body], for a loop that runs [n] times. *)
Fixpoint for_loop (n : nat) (i : Z) (body : Z → M unit) : M unit :=
  match n with
  | O => mret tt
  | S n' => body i ;; for_loop n' (i + 1) body
  end.

(** ** The class [ElementaryCellularAutomaton] *)

Record automaton := Automaton {
  rule : loc;
  width : Qc;
  generation : loc
}.

Definition set_generation (this : automaton) (l : loc) : automaton :=
  {| rule := rule this; width := width this; generation := l |}.

(** [ruleNumber.toString(2).padStart(8, '0').split('').map(Number).reverse()] *)
Definition _getRuleArray (ruleNumber : Z) : list JS.value :=
  reverse (map JS.Number
             (JS.split_chars (JS.padStart (JS.toString2 ruleNumber) 8 "0"))).

(** [const gen = Array(width).fill(0); gen[Math.floor(width / 2)] = 1;] *)
Definition _createInitialGeneration (width : Qc) : JS.result (list JS.value) :=
  arr ← JS.Array width;
  let gen := JS.fill arr (JS.Num 0) in
  mret (JS.set gen (JS.floor (width / 2)) (JS.Num 1)).

Definition rule_error : string := "Rule number must be between 0 and 255.".
Definition width_error : string := "Width must be a positive integer.".

(** The constructor.  [initialGeneration] is [None] for a call without the
    third argument (or with [null]); an array, even an empty one, is truthy
    and is copied by the spread.  The [console.warn] of the adjustment is not
    modelled. *)
Definition constructor (ruleNumber : Z) (width : Qc)
    (initialGeneration : option (list JS.value)) : M automaton :=
  if bool_decide (ruleNumber < 0) || bool_decide (ruleNumber > 255) then
    throw (JS.Error rule_error)
  else if JS.leb width 0 then
    throw (JS.Error width_error)
  else
    rule ← alloc (_getRuleArray ruleNumber);
    gen ← match initialGeneration with
          | Some init => mret init
          | None => lift (_createInitialGeneration width)
          end;
    generation ← alloc gen;
    if negb (JS.eqb (JS.length gen) width) then
      if JS.ltb (JS.length gen) width then
        let diff := (width - JS.length gen)%Qc in
        padding ← lift (arr ← JS.Array (Qc_of_Z (JS.floor (diff / 2)));
                        mret (JS.fill arr (JS.Num 0)));
        suffix ← lift (arr ← JS.Array (diff - JS.length padding)%Qc;
                       mret (JS.fill arr (JS.Num 0)));
        generation ← alloc (padding ++ gen ++ suffix);
        mret (Automaton rule width generation)
      else
        generation ← alloc (JS.slice0 gen width);
        mret (Automaton rule width generation)
    else mret (Automaton rule width generation).

(** The indices of the neighbours, with [this.width] the integer [w]. *)
Definition left_index (i w : Z) : Z := JS.rem (i - 1 + w) w.
Definition right_index (i w : Z) : Z := JS.rem (i + 1) w.

(** [parseInt(`${left}${middle}${right}`, 2)] *)
Definition neighborhoodIndex (left middle right : JS.value) : JS.value :=
  JS.parseInt2 (JS.to_string left ++ JS.to_string middle ++ JS.to_string right).

(** The method [nextGeneration], written once over the two accesses to array
    elements it makes: [rd l k] for the reads [l[k]] and [wr l i v] for the
    assignment [l[i] = v]. *)
Section accesses.
Context (rd : loc → JS.value → M JS.value).
Context (wr : loc → Z → JS.value → M unit).

(** One turn of the loop of [nextGeneration]. *)
Definition nextGeneration_body_with (this : automaton) (nextGen : loc)
    (w i : Z) : M unit :=
  left ← rd (generation this) (JS.Num (left_index i w));
  middle ← rd (generation this) (JS.Num i);
  right ← rd (generation this) (JS.Num (right_index i w));
  next ← rd (rule this)
           (JS.sub (JS.Num 7) (neighborhoodIndex left middle right));
  wr nextGen i next.

(** [nextGeneration()]: the reference it returns and the updated instance.
    [Array(this.width)] throws unless the width is an integer, so the loop
    only ever runs with an integer bound. *)
Definition nextGeneration_with (this : automaton) : M (loc * automaton) :=
  arr ← lift (JS.Array (width this));
  nextGen ← alloc (JS.fill arr (JS.Num 0));
  let w := JS.floor (width this) in
  for_loop (Z.to_nat w) 0 (nextGeneration_body_with this nextGen w);;
  let this := set_generation this nextGen in
  mret (generation this, this).

End accesses.

(** The method as JavaScript runs it, with the accesses [read] and
    [write]. *)
Definition nextGeneration_body : automaton → loc → Z → Z → M unit :=
  nextGeneration_body_with read write.

Definition nextGeneration : automaton → M (loc * automaton) :=
  nextGeneration_with read write.

(** The same method with every access to an array element under watch: it
    throws as soon as an index falls outside the array accessed. *)
Definition nextGeneration_strict : automaton → M (loc * automaton) :=
  nextGeneration_with read_strict write_strict.

(** [getCurrentGeneration()]: [[...this.generation]]. *)
Definition getCurrentGeneration (this : automaton) : M loc :=
  arr ← load (generation this);
  alloc arr.

(** ** Notions used to state the properties *)

(** The new state of cell [i] as one expression over the rule array [R] and
    the generation [g] of an instance of width [w]. *)
Definition next_cell (R g : list JS.value) (w i : Z) : JS.value :=
  JS.get R
    (JS.sub (JS.Num 7)
       (neighborhoodIndex (JS.get g (JS.Num (left_index i w)))
                          (JS.get g (JS.Num i))
                          (JS.get g (JS.Num (right_index i w))))).

Definition next_cells (R g : list JS.value) (w : Z) : list JS.value :=
  (λ j, next_cell R g w (Z.of_nat j)) <$> seq 0 (Z.to_nat w).

(** [n] dead cells. *)
Definition zeros (n : Z) : list JS.value := replicate (Z.to_nat n) (JS.Num 0).

(** The generation an instance of integer width [w] starts from, as the
    specification words it: the single live cell in the middle, or the
    supplied cells copied, centred in zeros, or cut to the first [w]. *)
Definition initial_cells (w : Z) (init : option (list JS.value))
    : list JS.value :=
  match init with
  | None => <[Z.to_nat (w / 2) := JS.Num 1]> (zeros w)
  | Some cells =>
      let len := Z.of_nat (List.length cells) in
      if len =? w then cells
      else if len <? w then
        zeros ((w - len) / 2) ++ cells ++ zeros ((w - len) - (w - len) / 2)
      else take (Z.to_nat w) cells
  end.

(** The cells [0] and [1] as values. *)
Definition bit (b : Z) : JS.value := JS.Num b.
Definition bits (g : list JS.value) : Prop := Forall JS.is_bit g.

(** Bit [v] of a rule number, as Wolfram's numbering assigns it to the
    neighbourhood whose triple reads [v] in binary. *)
Definition wolfram_bit (ruleNumber v : Z) : Z := Z.b2z (Z.testbit ruleNumber v).

(** The value [left*4 + middle*2 + right] of a neighbourhood of bits. *)
Definition triple_value (left middle right : Z) : Z :=
  left * 4 + middle * 2 + right.

(** A well-formed instance of integer width [w] in the heap [σ], with rule
    array [R] and current generation [g]. *)
Record valid (σ : store) (this : automaton) (w : Z) (R g : list JS.value)
    : Prop := Valid {
  valid_width : width this = Qc_of_Z w;
  valid_positive : 0 < w;
  valid_rule : σ !! rule this = Some R;
  valid_rule_length : List.length R = 8%nat;
  valid_rule_bits : bits R;
  valid_generation : σ !! generation this = Some g;
  valid_generation_length : Z.of_nat (List.length g) = w;
  valid_generation_bits : bits g
}.

(** [n] calls of [nextGeneration] in a row, as the driver makes them. *)
Fixpoint steps (n : nat) (this : automaton) : M automaton :=
  match n with
  | O => mret this
  | S n' => r ← nextGeneration this; steps n' r.2
  end.

(** The ring of cells turned by [k] places: cell [i] of the result is cell
    [i + k] of [g], indices taken modulo the length; [k] may be negative. *)
Definition rotation (k : Z) (g : list JS.value) : list JS.value :=
  rotate (Z.to_nat (k mod Z.of_nat (List.length g))) g.

(** One generation of Wolfram's rule [ruleNumber] on a ring of cells, as the
    specification words it: the next state of a cell whose neighbourhood
    reads [v = left*4 + middle*2 + right] is bit [v] of the rule number. *)
Definition wolfram_step (ruleNumber : Z) (g : list Z) : list Z :=
  let w := Z.of_nat (List.length g) in
  (λ j, let i := Z.of_nat j in
        wolfram_bit ruleNumber
          (triple_value (g !!! Z.to_nat ((i - 1 + w) mod w))
                        (g !!! Z.to_nat i)
                        (g !!! Z.to_nat ((i + 1) mod w))))
  <$> seq 0 (List.length g).

(** Past the two checks, the only exception left is the [RangeError] of
    [Array]. *)
Definition only_RangeError {A} (r : JS.result A) : Prop :=
  ∀ e, r = JS.Throw e → e = JS.RangeError.

(** A concrete instance of width [w] in a heap of two arrays, its rule array
    and its generation. *)
Definition sample_instance (w : Z) : automaton :=
  Automaton 1%positive (Qc_of_Z w) 2%positive.

Definition sample_store (ruleNumber : Z) (g : list Z) : store :=
  <[1%positive := _getRuleArray ruleNumber]> (<[2%positive := bit <$> g]> ∅).

(** ** The console and the driver *)

(** A JavaScript string as its UTF-16 code units. *)
Abbreviation jsstring := (list N).

(** An ASCII literal as a JavaScript string. *)
Definition of_string (s : string) : jsstring :=
  N_of_ascii <$> list_ascii_of_string s.

(** The lines logged so far, oldest first. *)
Abbreviation console := (list jsstring).

(** Computations that also log; what was logged before a throw stays
    logged. *)
Definition IO (A : Type) : Type :=
  console → store → console * JS.result (A * store).

#[global] Instance IO_ret : MRet IO := λ A x c σ, (c, JS.Ok (x, σ)).
#[global] Instance IO_bind : MBind IO := λ A B f m c σ,
  match m c σ with
  | (c', JS.Ok (x, σ')) => f x c' σ'
  | (c', JS.Throw e) => (c', JS.Throw e)
  end.

Definition liftM {A} (m : M A) : IO A := λ c σ, (c, m σ).

(** [console.log(line)]. *)
Definition console_log (line : jsstring) : IO unit := λ c σ,
  (c ++ [line], JS.Ok (tt, σ)).

(** The characters U+2588 (full block) and U+0020 (space). *)
Definition block : N := 9608.
Definition space : N := 32.

(** [cell === 1 ? '█' : ' '] *)
Definition glyph (cell : JS.value) : jsstring :=
  if decide (cell = JS.Num 1) then [block] else [space].

(** [this.generation.map(cell => ...).join('')] *)
Definition render (cells : list JS.value) : jsstring :=
  concat (glyph <$> cells).

(** [printGeneration()].  [map] and [join] treat a hole of the array and the
    value [undefined] differently, and [Undefined] stands for both: this is
    the method on the arrays that hold no [Undefined], as do all the arrays
    of bits. *)
Definition printGeneration (this : automaton) : IO unit :=
  cells ← liftM (load (generation this));
  console_log (render cells).

(** The three lines of fixed text of [runAutomaton], for integer arguments
    of magnitude below [2^53], which JavaScript holds and prints exactly. *)
Definition running_line (rule width generations : Z) : jsstring :=
  of_string "Running Elementary Cellular Automaton with Rule "
  ++ of_string (JS.to_string (JS.Num rule))
  ++ of_string ", Width "
  ++ of_string (JS.to_string (JS.Num width))
  ++ of_string ", for "
  ++ of_string (JS.to_string (JS.Num generations))
  ++ of_string " generations.".

Definition initial_line : jsstring := of_string "Initial Generation:".
Definition end_line : jsstring := of_string "--- End of Simulation ---".

(** [for (let i = 0; i < generations; i++) { ca.nextGeneration();
    ca.printGeneration(); }], for a loop that runs [n] times; [ca] is
    updated in place, so it is passed along.  The counter counts exactly up
    to [2^53]. *)
Fixpoint run_loop (n : nat) (ca : automaton) : IO automaton :=
  match n with
  | O => mret ca
  | S n' =>
      r ← liftM (nextGeneration ca);
      let ca := r.2 in
      printGeneration ca;;
      run_loop n' ca
  end.

(** [runAutomaton(rule, width, generations)] for integer arguments of
    magnitude below [2^53]. *)
Definition runAutomaton (rule width generations : Z) : IO unit :=
  console_log (running_line rule width generations);;
  ca ← liftM (constructor rule (Qc_of_Z width) None);
  console_log initial_line;;
  printGeneration ca;;
  run_loop (Z.to_nat generations) ca;;
  console_log end_line.

(** The three calls at the end of the file. *)
Definition main : IO unit :=
  runAutomaton 90 50 20;;
  runAutomaton 110 150 40;;
  runAutomaton 60 100 60.

(** ** Further notions used to state the properties *)

(** The generation [k] steps after [g], for the rule array [R] and the
    width [w]. *)
Definition generation_after (R : list JS.value) (w : Z) (g : list JS.value)
    (k : nat) : list JS.value :=
  Nat.iter k (λ g, next_cells R g w) g.

(** The rule number whose 8 bits are those of [ruleNumber] in the opposite
    order. *)
Definition reverse8 (ruleNumber : Z) : Z :=
  foldr (λ k acc, acc + wolfram_bit ruleNumber k * 2 ^ (7 - k)) 0 (seqZ 0 8).

(** The number a rule array spells, entry [k] being its bit [k]. *)
Definition decode_rule (R : list JS.value) : Z :=
  foldr (λ v acc, match v with JS.Num b => b + 2 * acc | _ => 2 * acc end) 0 R.

(** The binary digits of a positive number as characters, least significant
    first. *)
Fixpoint pos_chars (p : positive) : list ascii :=
  match p with
  | xH => ["1"%char]
  | xO p' => "0"%char :: pos_chars p'
  | xI p' => "1"%char :: pos_chars p'
  end.

(** A computation that, when it returns, has left every array that was in
    the heap as it was. *)
Definition grows {A} (m : M A) : Prop :=
  ∀ (σ : store) x σ', m σ = JS.Ok (x, σ') → σ ⊆ σ'.

(** Whether a number is an integer, as a proposition. *)
Definition integer (q : Qc) : Prop := ∃ z, q = Qc_of_Z z.

(** ** Tactics *)

(** Unfolds the operations of the heap monad. *)
Ltac unfold_monad :=
  unfold read, write, load, alloc, lift, throw,
    mbind, mret, M_bind, M_ret, JS.result_bind, JS.result_ret in *;
  cbn beta in *.

(** Proves that a literal list holds only the cells 0 and 1. *)
Ltac solve_bits :=
  simpl; repeat (constructor; [first [by left | by right]|]); constructor.

(** * Properties *)

Example toString2_90 : JS.toString2 90 = "1011010"%string.
Proof. reflexivity. Qed.

Example toString10_samples :
  map JS.toString10 [0; 1; 7; 10; 255; -12; 1000] =
  ["0"; "1"; "7"; "10"; "255"; "-12"; "1000"]%string.
Proof. reflexivity. Qed.

Example rotation_samples :
  rotation 1 (bit <$> [1; 0; 0]) = bit <$> [0; 0; 1] ∧
  rotation (-1) (bit <$> [1; 0; 0]) = bit <$> [0; 1; 0] ∧
  rotation 4 (bit <$> [1; 0; 0]) = bit <$> [0; 0; 1].
Proof. repeat split; reflexivity. Qed.

Example getRuleArray_samples :
  _getRuleArray 30 = bit <$> [0; 1; 1; 1; 1; 0; 0; 0] ∧
  _getRuleArray 90 = bit <$> [0; 1; 0; 1; 1; 0; 1; 0] ∧
  _getRuleArray 1 = bit <$> [1; 0; 0; 0; 0; 0; 0; 0].
Proof. repeat split; reflexivity. Qed.

Example parseInt2_samples :
  map JS.parseInt2
    ["101"; "000"; "120"; "201"; "-11"; "1undefined0"; "NaN01"]%string
  = [JS.Num 5; JS.Num 0; JS.Num 1; JS.NaN; JS.Num (-3); JS.Num 1; JS.NaN].
Proof. reflexivity. Qed.

(** ** Strings and the rule array *)

Lemma getRuleArray_bits ruleNumber :
  0 ≤ ruleNumber ≤ 255 →
  _getRuleArray ruleNumber =
  (λ k, JS.Num (wolfram_bit ruleNumber k)) <$> seqZ 0 8.
Proof.
  intros Hr.
  assert (Hall : forallb (λ r, bool_decide
            (_getRuleArray r = (λ k, JS.Num (wolfram_bit r k)) <$> seqZ 0 8))
            (seqZ 0 256) = true) by (vm_compute; reflexivity).
  rewrite forallb_forall in Hall.
  assert (Hin : In ruleNumber (seqZ 0 256))
    by (apply list_elem_of_In, elem_of_seqZ; lia).
  apply Hall in Hin. by apply bool_decide_eq_true in Hin.
Qed.

Lemma getRuleArray_length ruleNumber :
  0 ≤ ruleNumber ≤ 255 → List.length (_getRuleArray ruleNumber) = 8%nat.
Proof. intros Hr. rewrite getRuleArray_bits by done. reflexivity. Qed.

Lemma wolfram_bit_01 r v : wolfram_bit r v = 0 ∨ wolfram_bit r v = 1.
Proof. unfold wolfram_bit. destruct (Z.testbit r v); auto. Qed.

Lemma getRuleArray_is_bits ruleNumber :
  0 ≤ ruleNumber ≤ 255 → bits (_getRuleArray ruleNumber).
Proof.
  intros Hr. rewrite getRuleArray_bits by done.
  apply Forall_fmap, Forall_forall. intros k _. simpl.
  unfold JS.is_bit. destruct (wolfram_bit_01 ruleNumber k) as [-> | ->]; auto.
Qed.

(** ** The heap *)

Lemma read_at (σ : store) l arr k :
  σ !! l = Some arr → read l k σ = JS.Ok (JS.get arr k, σ).
Proof. intros H. unfold_monad. by rewrite H. Qed.

Lemma write_at (σ : store) l arr i v :
  σ !! l = Some arr → write l i v σ = JS.Ok (tt, <[l := JS.set arr i v]> σ).
Proof. intros H. unfold_monad. by rewrite H. Qed.

Lemma fresh_loc_None (σ : store) : σ !! fresh (dom σ) = None.
Proof. apply not_elem_of_dom, is_fresh. Qed.

Lemma fresh_loc_ne (σ : store) l arr : σ !! l = Some arr → l ≠ fresh (dom σ).
Proof. intros H ->. by rewrite fresh_loc_None in H. Qed.

(** Writing into the last cell not yet computed. *)
Lemma set_next_cell (cells : list JS.value) n v :
  JS.set (cells ++ replicate (S n) (JS.Num 0)) (Z.of_nat (List.length cells)) v
  = (cells ++ [v]) ++ replicate n (JS.Num 0).
Proof.
  unfold JS.set. rewrite bool_decide_eq_false_2 by lia.
  rewrite Nat2Z.id, bool_decide_eq_true_2
    by (rewrite length_app, length_replicate; lia).
  rewrite insert_app_r_alt, Nat.sub_diag by lia. simpl.
  by rewrite <- app_assoc.
Qed.

(** ** The loop of [nextGeneration] *)

Section loop.
Context (this : automaton) (nextGen : loc) (w : Z) (R g : list JS.value).
Hypothesis Hrule : rule this ≠ nextGen.
Hypothesis Hgen : generation this ≠ nextGen.

Lemma nextGeneration_body_at (σ : store) (cells : list JS.value) n :
  σ !! rule this = Some R →
  σ !! generation this = Some g →
  σ !! nextGen = Some (cells ++ replicate (S n) (JS.Num 0)) →
  let i := Z.of_nat (List.length cells) in
  nextGeneration_body this nextGen w i σ =
  JS.Ok (tt, <[nextGen := (cells ++ [next_cell R g w i]) ++
                          replicate n (JS.Num 0)]> σ).
Proof.
  intros HR Hg Hn i. unfold nextGeneration_body, nextGeneration_body_with.
  unfold mbind at 1, M_bind. rewrite (read_at _ _ _ _ Hg).
  unfold mbind at 1, M_bind. rewrite (read_at _ _ _ _ Hg).
  unfold mbind at 1, M_bind. rewrite (read_at _ _ _ _ Hg).
  unfold mbind at 1, M_bind. rewrite (read_at _ _ _ _ HR).
  rewrite (write_at _ _ _ _ _ Hn). unfold i. by rewrite set_next_cell.
Qed.

Lemma for_loop_cells n : ∀ (σ : store) (cells : list JS.value),
  σ !! rule this = Some R →
  σ !! generation this = Some g →
  σ !! nextGen = Some (cells ++ replicate n (JS.Num 0)) →
  for_loop n (Z.of_nat (List.length cells))
    (nextGeneration_body this nextGen w) σ =
  JS.Ok (tt, <[nextGen := cells ++
                 ((λ j, next_cell R g w (Z.of_nat j)) <$>
                    seq (List.length cells) n)]> σ).
Proof.
  induction n as [|n IH]; intros σ cells HR Hg Hn.
  - simpl in *. unfold_monad. by rewrite insert_id.
  - simpl for_loop. unfold mbind, M_bind.
    rewrite (nextGeneration_body_at σ cells n HR Hg Hn).
    replace (Z.of_nat (List.length cells) + 1)
      with (Z.of_nat (List.length (cells ++ [next_cell R g w
               (Z.of_nat (List.length cells))])))
      by (rewrite length_app; simpl; lia).
    rewrite IH.
    + rewrite insert_insert_eq, length_app, <- app_assoc. simpl.
      by rewrite Nat.add_1_r.
    + by rewrite lookup_insert_ne.
    + by rewrite lookup_insert_ne.
    + by rewrite lookup_insert_eq.
Qed.
End loop.

(** ** Integers among the rationals *)

Lemma Array_of_Z n :
  0 ≤ n → JS.Array (Qc_of_Z n) = JS.Ok (replicate (Z.to_nat n) JS.Undefined).
Proof.
  intros Hn. unfold JS.Array, JS.is_integer. simpl.
  by rewrite (proj2 (Z.leb_le 0 n)).
Qed.

Lemma floor_of_Z n : JS.floor (Qc_of_Z n) = n.
Proof. unfold JS.floor, Qfloor. simpl. apply Z.div_1_r. Qed.

Lemma leb_of_Z a b : JS.leb (Qc_of_Z a) (Qc_of_Z b) = (a <=? b).
Proof. unfold JS.leb, Qle_bool. simpl. by rewrite !Z.mul_1_r. Qed.

Lemma ltb_of_Z a b : JS.ltb (Qc_of_Z a) (Qc_of_Z b) = (a <? b).
Proof.
  change (JS.ltb (Qc_of_Z a) (Qc_of_Z b))
    with (negb (JS.leb (Qc_of_Z b) (Qc_of_Z a))).
  rewrite leb_of_Z. by rewrite Z.ltb_antisym.
Qed.

Lemma eqb_of_Z a b : JS.eqb (Qc_of_Z a) (Qc_of_Z b) = (a =? b).
Proof.
  unfold JS.eqb, Qeq_bool. simpl. by rewrite !Z.mul_1_r.
Qed.

Lemma Qc_of_Z_minus a b : (Qc_of_Z a - Qc_of_Z b)%Qc = Qc_of_Z (a - b).
Proof.
  apply Qc_is_canon. unfold Qcminus, Qcplus, Qcopp, Q2Qc. simpl this.
  rewrite !Qred_correct. unfold Qeq. simpl. lia.
Qed.

Lemma floor_half_of_Z d : JS.floor (Qc_of_Z d / 2)%Qc = d / 2.
Proof.
  unfold JS.floor, Qcdiv, Qcmult, Qcinv, Q2Qc. simpl this.
  rewrite Qred_correct. unfold Qfloor. simpl. by rewrite Z.mul_1_r.
Qed.

Lemma leb_of_Z_0 w : JS.leb (Qc_of_Z w) 0 = (w <=? 0).
Proof. unfold JS.leb, Qle_bool. simpl. by rewrite Z.mul_1_r. Qed.


(** ** Steps of a computation *)

Lemma bind_alloc {A} arr (k : loc → M A) (σ : store) :
  (alloc arr ≫= k) σ = k (fresh (dom σ)) (<[fresh (dom σ) := arr]> σ).
Proof. reflexivity. Qed.

Lemma bind_ret {A B} (x : A) (k : A → M B) (σ : store) :
  (mret x ≫= k) σ = k x σ.
Proof. reflexivity. Qed.

Lemma bind_lift_Ok {A B} (x : A) (k : A → M B) (σ : store) :
  (lift (JS.Ok x) ≫= k) σ = k x σ.
Proof. reflexivity. Qed.

Lemma filled_Array_of_Z n :
  0 ≤ n →
  (JS.Array (Qc_of_Z n) ≫= λ arr, mret (JS.fill arr (JS.Num 0)))
  = JS.Ok (zeros n).
Proof.
  intros Hn. rewrite Array_of_Z by done.
  unfold mbind, JS.result_bind, mret, JS.result_ret, JS.fill, zeros.
  by rewrite length_replicate.
Qed.

Lemma zeros_length n : 0 ≤ n → Z.of_nat (length (zeros n)) = n.
Proof. intros Hn. unfold zeros. rewrite length_replicate. lia. Qed.

Lemma insert_fresh_subseteq (σ : store) arr : σ ⊆ <[fresh (dom σ) := arr]> σ.
Proof. apply insert_subseteq, fresh_loc_None. Qed.

(** ** What the methods compute *)

Lemma nextGeneration_spec (σ : store) this w R g :
  width this = Qc_of_Z w → 0 ≤ w →
  σ !! rule this = Some R →
  σ !! generation this = Some g →
  let l := fresh (dom σ) in
  nextGeneration this σ =
  JS.Ok ((l, set_generation this l), <[l := next_cells R g w]> σ).
Proof.
  intros Hw Hpos HR Hg l. unfold nextGeneration, nextGeneration_with.
  fold nextGeneration_body.
  rewrite Hw, Array_of_Z, floor_of_Z by done.
  unfold mbind at 1, M_bind, lift.
  unfold mbind at 1, M_bind, alloc. fold l.
  unfold mbind at 1, M_bind.
  unfold JS.fill. rewrite length_replicate.
  pose proof (fresh_loc_ne σ _ _ HR) as Hl1.
  pose proof (fresh_loc_ne σ _ _ Hg) as Hl2. fold l in Hl1, Hl2.
  rewrite (for_loop_cells this l w R g Hl1 Hl2 _ _ []); simpl.
  - unfold mret, M_ret. by rewrite insert_insert_eq.
  - by rewrite lookup_insert_ne.
  - by rewrite lookup_insert_ne.
  - by rewrite lookup_insert_eq.
Qed.

Lemma getCurrentGeneration_spec (σ : store) this g :
  σ !! generation this = Some g →
  let l := fresh (dom σ) in
  getCurrentGeneration this σ = JS.Ok (l, <[l := g]> σ).
Proof. intros Hg l. unfold getCurrentGeneration. unfold_monad. by rewrite Hg. Qed.

Lemma next_cells_length R g w : List.length (next_cells R g w) = Z.to_nat w.
Proof. unfold next_cells. by rewrite length_fmap, length_seq. Qed.

Lemma next_cells_lookup R g w (i : nat) :
  (i < Z.to_nat w)%nat →
  next_cells R g w !! i = Some (next_cell R g w (Z.of_nat i)).
Proof.
  intros Hi. unfold next_cells.
  by rewrite list_lookup_fmap, lookup_seq_lt.
Qed.

(** ** The constructor at an integer width *)

Lemma createInitialGeneration_of_Z w :
  0 < w →
  _createInitialGeneration (Qc_of_Z w) = JS.Ok (initial_cells w None).
Proof.
  intros Hw. unfold _createInitialGeneration.
  rewrite Array_of_Z, floor_half_of_Z by lia.
  unfold mbind, JS.result_bind, mret, JS.result_ret, JS.fill, JS.set.
  rewrite length_replicate.
  assert (0 ≤ w / 2 < w) by (split; [apply Z.div_pos|apply Z.div_lt_upper_bound]; lia).
  rewrite bool_decide_eq_false_2 by lia.
  rewrite bool_decide_eq_true_2 by (rewrite length_replicate; lia).
  reflexivity.
Qed.

Lemma constructor_spec (σ : store) r w init :
  0 ≤ r ≤ 255 → 0 < w →
  ∃ this σ',
    constructor r (Qc_of_Z w) init σ = JS.Ok (this, σ') ∧
    width this = Qc_of_Z w ∧
    rule this = fresh (dom σ) ∧
    σ' !! rule this = Some (_getRuleArray r) ∧
    σ' !! generation this = Some (initial_cells w init) ∧
    σ ⊆ σ'.
Proof.
  intros Hr Hw. unfold constructor.
  rewrite !bool_decide_eq_false_2 by lia. cbn [orb].
  rewrite leb_of_Z_0, (proj2 (Z.leb_gt w 0)) by lia.
  rewrite bind_alloc.
  set (l1 := fresh (dom σ)). set (σ1 := <[l1 := _getRuleArray r]> σ).
  assert (Hσ1 : σ ⊆ σ1) by apply insert_fresh_subseteq.
  assert (Hl1 : σ1 !! l1 = Some (_getRuleArray r)) by apply lookup_insert_eq.
  assert (Hgen : (match init with
                  | Some init0 => mret init0
                  | None => lift (_createInitialGeneration (Qc_of_Z w))
                  end : M _) = mret (match init with Some c => c | None => initial_cells w None end)).
  { destruct init; [done|]. by rewrite createInitialGeneration_of_Z. }
  rewrite Hgen, bind_ret, bind_alloc. clear Hgen.
  set (gen := match init with Some c => c | None => _ end).
  set (l2 := fresh (dom σ1)). set (σ2 := <[l2 := gen]> σ1).
  assert (Hσ2 : σ ⊆ σ2) by (etrans; [done|apply insert_fresh_subseteq]).
  assert (Hl2 : σ2 !! l1 = Some (_getRuleArray r)).
  { unfold σ2. rewrite lookup_insert_ne; [done|].
    apply not_eq_sym. by apply (fresh_loc_ne σ1 _ _ Hl1). }
  assert (Hl3 : ∀ arr, <[fresh (dom σ2) := arr]> σ2 !! l1
                       = Some (_getRuleArray r)).
  { intros arr. rewrite lookup_insert_ne; [done|].
    apply not_eq_sym. by apply (fresh_loc_ne σ2 _ _ Hl2). }
  assert (Hσ3 : ∀ arr, σ ⊆ <[fresh (dom σ2) := arr]> σ2)
    by (intros arr; etrans; [done|apply insert_fresh_subseteq]).
  unfold JS.length. rewrite eqb_of_Z, ltb_of_Z.
  set (len := Z.of_nat (length gen)).
  assert (Hinit : initial_cells w init =
            if len =? w then gen
            else if len <? w then
              zeros ((w - len) / 2) ++ gen ++ zeros ((w - len) - (w - len) / 2)
            else take (Z.to_nat w) gen).
  { destruct init as [c|]; [done|].
    assert (len = w) as ->; [|by rewrite Z.eqb_refl].
    unfold len, gen, initial_cells, zeros.
    rewrite length_insert, length_replicate. lia. }
  rewrite Hinit. clear Hinit.
  destruct (Z.eqb_spec len w) as [Heq|Hne]; cbn [negb].
  { eexists _, _. split; [reflexivity|]. cbn [width rule generation].
    repeat split; trivial. apply lookup_insert_eq. }
  destruct (Z.ltb_spec len w) as [Hlt|Hge].
  - rewrite Qc_of_Z_minus, floor_half_of_Z.
    assert (0 ≤ (w - len) / 2) by (apply Z.div_pos; lia).
    assert ((w - len) / 2 < w - len) by (apply Z.div_lt_upper_bound; lia).
    rewrite filled_Array_of_Z, bind_lift_Ok by done. cbn beta.
    rewrite zeros_length by done.
    rewrite !Qc_of_Z_minus.
    rewrite filled_Array_of_Z, bind_lift_Ok, bind_alloc by lia.
    eexists _, _. split; [reflexivity|]. cbn [width rule generation].
    repeat split; trivial.
    apply lookup_insert_eq.
  - rewrite bind_alloc. unfold JS.slice0. rewrite floor_of_Z.
    eexists _, _. split; [reflexivity|]. cbn [width rule generation].
    repeat split; trivial.
    apply lookup_insert_eq.
Qed.

(** ** Neighbourhoods of bits *)

Lemma is_bit_cases v : JS.is_bit v → ∃ b, v = JS.Num b ∧ (b = 0 ∨ b = 1).
Proof. intros [-> | ->]; eauto. Qed.

Lemma neighborhoodIndex_bits l m r :
  (l = 0 ∨ l = 1) → (m = 0 ∨ m = 1) → (r = 0 ∨ r = 1) →
  neighborhoodIndex (JS.Num l) (JS.Num m) (JS.Num r)
  = JS.Num (triple_value l m r).
Proof. intros [-> | ->] [-> | ->] [-> | ->]; reflexivity. Qed.

Lemma triple_value_range l m r :
  (l = 0 ∨ l = 1) → (m = 0 ∨ m = 1) → (r = 0 ∨ r = 1) →
  0 ≤ triple_value l m r ≤ 7.
Proof. unfold triple_value. lia. Qed.

Lemma left_index_mod i w : 0 ≤ i < w → left_index i w = (i - 1 + w) mod w.
Proof. intros H. unfold left_index, JS.rem. apply Z.rem_mod_nonneg; lia. Qed.

Lemma right_index_mod i w : 0 ≤ i < w → right_index i w = (i + 1) mod w.
Proof. intros H. unfold right_index, JS.rem. apply Z.rem_mod_nonneg; lia. Qed.

Lemma get_in_range (arr : list JS.value) i :
  0 ≤ i < Z.of_nat (List.length arr) →
  ∃ v, arr !! Z.to_nat i = Some v ∧ JS.get arr (JS.Num i) = v.
Proof.
  intros Hi. destruct (lookup_lt_is_Some_2 arr (Z.to_nat i)) as [v Hv]; [lia|].
  exists v. split; [done|]. unfold JS.get.
  rewrite bool_decide_eq_true_2 by lia. by rewrite Hv.
Qed.

Lemma get_bit (arr : list JS.value) i :
  bits arr → 0 ≤ i < Z.of_nat (List.length arr) →
  ∃ b, arr !! Z.to_nat i = Some (JS.Num b) ∧ JS.get arr (JS.Num i) = JS.Num b
       ∧ (b = 0 ∨ b = 1).
Proof.
  intros Hb Hi. destruct (get_in_range arr i Hi) as (v & Hv & Hget).
  destruct (is_bit_cases v) as (b & -> & Hb01).
  { unfold bits in Hb. rewrite Forall_lookup in Hb. by eapply Hb. }
  eauto.
Qed.

(** The new state of a cell whose neighbourhood is three bits: the entry of
    the rule array at [7 - v]. *)
Lemma next_cell_of_bits R g w i :
  bits g → Z.of_nat (List.length g) = w → 0 ≤ i < w →
  ∃ l m r,
    g !! Z.to_nat ((i - 1 + w) mod w) = Some (JS.Num l) ∧
    g !! Z.to_nat i = Some (JS.Num m) ∧
    g !! Z.to_nat ((i + 1) mod w) = Some (JS.Num r) ∧
    (l = 0 ∨ l = 1) ∧ (m = 0 ∨ m = 1) ∧ (r = 0 ∨ r = 1) ∧
    next_cell R g w i = JS.get R (JS.Num (7 - triple_value l m r)).
Proof.
  intros Hb Hlen Hi. unfold next_cell.
  rewrite left_index_mod, right_index_mod by done.
  destruct (get_bit g ((i - 1 + w) mod w) Hb) as (l & Hl & -> & Hl01).
  { rewrite Hlen. apply Z.mod_pos_bound. lia. }
  destruct (get_bit g i Hb) as (m & Hm & -> & Hm01); [lia|].
  destruct (get_bit g ((i + 1) mod w) Hb) as (r & Hr & -> & Hr01).
  { rewrite Hlen. apply Z.mod_pos_bound. lia. }
  exists l, m, r. rewrite neighborhoodIndex_bits by done.
  repeat split; trivial.
Qed.

Lemma next_cell_is_bit R g w i :
  bits R → List.length R = 8%nat →
  bits g → Z.of_nat (List.length g) = w → 0 ≤ i < w →
  JS.is_bit (next_cell R g w i).
Proof.
  intros HR HR8 Hb Hlen Hi.
  destruct (next_cell_of_bits R g w i Hb Hlen Hi)
    as (l & m & r & _ & _ & _ & Hl & Hm & Hr & ->).
  pose proof (triple_value_range l m r Hl Hm Hr).
  destruct (get_bit R (7 - triple_value l m r) HR) as (b & _ & -> & Hb01);
    [lia|].
  destruct Hb01 as [-> | ->]; [by left | by right].
Qed.

Lemma next_cells_bits R g w :
  bits R → List.length R = 8%nat →
  bits g → Z.of_nat (List.length g) = w →
  bits (next_cells R g w).
Proof.
  intros HR HR8 Hb Hlen. unfold bits, next_cells.
  apply Forall_fmap, Forall_forall. intros j Hj.
  apply elem_of_seq in Hj. simpl. apply next_cell_is_bit; trivial. lia.
Qed.

(** A step keeps an instance well formed. *)
Lemma nextGeneration_valid (σ : store) this w R g :
  valid σ this w R g →
  ∃ l,
    nextGeneration this σ =
      JS.Ok ((l, set_generation this l), <[l := next_cells R g w]> σ) ∧
    σ !! l = None ∧
    valid (<[l := next_cells R g w]> σ) (set_generation this l) w R
          (next_cells R g w).
Proof.
  intros [Hw Hpos HR HR8 HRb Hg Hlen Hgb].
  exists (fresh (dom σ)). split; [|split].
  - apply nextGeneration_spec; trivial. lia.
  - apply fresh_loc_None.
  - split; simpl; trivial.
    + rewrite lookup_insert_ne; [done|].
      apply not_eq_sym. by apply (fresh_loc_ne σ _ _ HR).
    + apply lookup_insert_eq.
    + rewrite next_cells_length. lia.
    + by apply next_cells_bits.
Qed.

(** ** Rotations of the ring *)

Lemma rotation_length k g : List.length (rotation k g) = List.length g.
Proof. unfold rotation. apply length_rotate. Qed.

Lemma rotation_lookup k (g : list JS.value) a :
  0 ≤ a < Z.of_nat (List.length g) →
  rotation k g !! Z.to_nat a
  = g !! Z.to_nat ((k + a) mod Z.of_nat (List.length g)).
Proof.
  intros Ha. unfold rotation. rewrite lookup_rotate_r by lia.
  f_equal. unfold rotate_nat_add.
  rewrite !Z2Nat.id by (try apply Z.mod_pos_bound; lia).
  by rewrite Zplus_mod_idemp_l.
Qed.

Lemma get_rotation k (g : list JS.value) a :
  0 ≤ a < Z.of_nat (List.length g) →
  JS.get (rotation k g) (JS.Num a)
  = JS.get g (JS.Num ((k + a) mod Z.of_nat (List.length g))).
Proof.
  intros Ha. unfold JS.get.
  rewrite !bool_decide_eq_true_2 by (try apply Z.mod_pos_bound; lia).
  by rewrite rotation_lookup.
Qed.

Lemma next_cell_rotation R g w k i :
  Z.of_nat (List.length g) = w → 0 ≤ i < w →
  next_cell R (rotation k g) w i = next_cell R g w ((k + i) mod w).
Proof.
  intros Hlen Hi. unfold next_cell.
  assert (Hj : 0 ≤ (k + i) mod w < w) by (apply Z.mod_pos_bound; lia).
  rewrite !left_index_mod, !right_index_mod by done.
  rewrite !get_rotation
    by (rewrite Hlen; try apply Z.mod_pos_bound; lia).
  rewrite Hlen.
  replace ((k + (i - 1 + w) mod w) mod w) with (((k + i) mod w - 1 + w) mod w).
  2:{ rewrite Zplus_mod_idemp_r.
      replace ((k + i) mod w - 1 + w) with ((k + i) mod w + (w - 1)) by lia.
      rewrite Zplus_mod_idemp_l. f_equal. lia. }
  replace ((k + (i + 1) mod w) mod w) with (((k + i) mod w + 1) mod w).
  2:{ rewrite Zplus_mod_idemp_r, Zplus_mod_idemp_l. f_equal. lia. }
  reflexivity.
Qed.

Lemma next_cells_rotation R g w k :
  Z.of_nat (List.length g) = w → 0 < w →
  next_cells R (rotation k g) w = rotation k (next_cells R g w).
Proof.
  intros Hlen Hw. apply list_eq. intros i.
  destruct (decide (i < Z.to_nat w)%nat) as [Hi|Hi].
  - rewrite next_cells_lookup by done.
    replace i with (Z.to_nat (Z.of_nat i)) at 2 by lia.
    rewrite rotation_lookup by (rewrite next_cells_length; lia).
    rewrite next_cells_length, Z2Nat.id by lia.
    rewrite next_cells_lookup.
    + rewrite Z2Nat.id by (apply Z.mod_pos_bound; lia).
      f_equal. apply next_cell_rotation; [done|lia].
    + pose proof (Z.mod_pos_bound (k + Z.of_nat i) w Hw). lia.
  - rewrite !lookup_ge_None_2; [done| |].
    + rewrite rotation_length, next_cells_length. lia.
    + rewrite next_cells_length. lia.
Qed.

(** ** The first generation *)

Lemma zeros_bits n : bits (zeros n).
Proof. apply Forall_replicate. by left. Qed.

Lemma initial_cells_length w init :
  0 < w → Z.of_nat (List.length (initial_cells w init)) = w.
Proof.
  intros Hw. destruct init as [cells|]; simpl.
  - destruct (Z.eqb_spec (Z.of_nat (List.length cells)) w) as [|Hne]; [done|].
    destruct (Z.ltb_spec (Z.of_nat (List.length cells)) w) as [Hlt|Hge].
    + set (d := w - Z.of_nat (List.length cells)).
      assert (0 ≤ d / 2) by (apply Z.div_pos; lia).
      assert (d / 2 < d) by (apply Z.div_lt_upper_bound; lia).
      rewrite !length_app, !Nat2Z.inj_add, !zeros_length by lia. lia.
    + rewrite length_take. lia.
  - unfold zeros. rewrite length_insert, length_replicate. lia.
Qed.

Lemma initial_cells_bits w init :
  (∀ cells, init = Some cells → bits cells) → bits (initial_cells w init).
Proof.
  intros Hinit. destruct init as [cells|]; simpl.
  - specialize (Hinit cells eq_refl).
    repeat case_match; trivial.
    + repeat apply Forall_app_2; trivial; apply zeros_bits.
    + by apply Forall_take.
  - apply Forall_insert; [apply zeros_bits | by right].
Qed.

Lemma constructor_valid (σ : store) r w init :
  0 ≤ r ≤ 255 → 0 < w → (∀ cells, init = Some cells → bits cells) →
  ∃ this σ',
    constructor r (Qc_of_Z w) init σ = JS.Ok (this, σ') ∧
    valid σ' this w (_getRuleArray r) (initial_cells w init).
Proof.
  intros Hr Hw Hinit.
  destruct (constructor_spec σ r w init Hr Hw)
    as (this & σ' & Hc & Hwidth & _ & HR & Hg & _).
  exists this, σ'. split; [done|]. split; trivial.
  - by apply getRuleArray_length.
  - by apply getRuleArray_is_bits.
  - by apply initial_cells_length.
  - by apply initial_cells_bits.
Qed.

Lemma steps_valid n : ∀ (σ : store) this w R g,
  valid σ this w R g →
  ∃ this' σ' g',
    steps n this σ = JS.Ok (this', σ') ∧ valid σ' this' w R g' ∧
    rule this' = rule this.
Proof.
  induction n as [|n IH]; intros σ this w R g Hv.
  - exists this, σ, g. split; [reflexivity|]. by split.
  - destruct (nextGeneration_valid σ this w R g Hv) as (l & Hstep & _ & Hv').
    destruct (IH _ _ _ _ _ Hv') as (this' & σ' & g' & Hsteps & Hv'' & Hrule).
    exists this', σ', g'. split; [|by split].
    simpl steps. unfold mbind, M_bind. by rewrite Hstep.
Qed.

(** ** Which bit of the rule number a neighbourhood reads *)

Lemma getRuleArray_lookup r p :
  0 ≤ r ≤ 255 → 0 ≤ p ≤ 7 →
  JS.get (_getRuleArray r) (JS.Num p) = JS.Num (wolfram_bit r p).
Proof.
  intros Hr Hp. rewrite getRuleArray_bits by done. unfold JS.get.
  rewrite bool_decide_eq_true_2 by lia.
  rewrite list_lookup_fmap, lookup_seqZ_lt by lia. simpl.
  do 2 f_equal. lia.
Qed.

(** The step reads bit [7 - v], not bit [v], of the rule number. *)
Lemma next_cell_reversed_bit r g w i :
  0 ≤ r ≤ 255 → bits g → Z.of_nat (List.length g) = w → 0 ≤ i < w →
  ∃ left middle right,
    g !! Z.to_nat ((i - 1 + w) mod w) = Some (JS.Num left) ∧
    g !! Z.to_nat i = Some (JS.Num middle) ∧
    g !! Z.to_nat ((i + 1) mod w) = Some (JS.Num right) ∧
    next_cell (_getRuleArray r) g w i
    = JS.Num (wolfram_bit r (7 - triple_value left middle right)).
Proof.
  intros Hr Hb Hlen Hi.
  destruct (next_cell_of_bits (_getRuleArray r) g w i Hb Hlen Hi)
    as (l & m & r' & Hl & Hm & Hr' & Hl01 & Hm01 & Hr01 & ->).
  exists l, m, r'. repeat split; trivial.
  pose proof (triple_value_range l m r' Hl01 Hm01 Hr01).
  apply getRuleArray_lookup; lia.
Qed.

(** C1. Rule 30 on the ring [0,0,1,0,0]: the rule array holds bit [p] of 30
    at index [p], the step reads index [7 - v], and so the cells become
    [0,0,0,1,0], whereas bit [v] of 30, Wolfram's rule 30, gives
    [0,1,1,1,0].  Cell 1, of neighbourhood 001, becomes 0, and bit 1 of 30
    is 1. *)
Theorem rule30_step_differs_from_wolfram :
  ∃ this σ l this' σ',
    constructor 30 (Qc_of_Z 5) (Some (bit <$> [0; 0; 1; 0; 0])) ∅
      = JS.Ok (this, σ) ∧
    σ !! rule this = Some (bit <$> [0; 1; 1; 1; 1; 0; 0; 0]) ∧
    nextGeneration this σ = JS.Ok ((l, this'), σ') ∧
    σ' !! l = Some (bit <$> [0; 0; 0; 1; 0]) ∧
    wolfram_step 30 [0; 0; 1; 0; 0] = [0; 1; 1; 1; 0] ∧
    wolfram_bit 30 (triple_value 0 0 1) = 1.
Proof.
  eexists _, _, _, _, _.
  split; [vm_compute; reflexivity|].
  repeat split; vm_compute; reflexivity.
Qed.

(** ** References handed to the caller *)

(** What [nextGeneration] returns is the very array the instance keeps. *)
Lemma nextGeneration_returns_generation (σ : store) this w R g :
  valid σ this w R g →
  ∃ l this' σ',
    nextGeneration this σ = JS.Ok ((l, this'), σ') ∧ l = generation this'.
Proof.
  intros Hv. destruct (nextGeneration_valid σ this w R g Hv) as (l & Hs & _).
  by eexists l, _, _.
Qed.

(** What [getCurrentGeneration] returns is a new array: the call leaves
    every array of the heap as it was, and whatever the caller then stores
    behind the reference, the arrays of the instance stay as they are. *)
Lemma getCurrentGeneration_detached (σ : store) this R g :
  σ !! rule this = Some R →
  σ !! generation this = Some g →
  ∃ l σ',
    getCurrentGeneration this σ = JS.Ok (l, σ') ∧
    σ' !! l = Some g ∧ σ ⊆ σ' ∧
    ∀ arr, <[l := arr]> σ' !! generation this = Some g ∧
           <[l := arr]> σ' !! rule this = Some R.
Proof.
  intros HR Hg. exists (fresh (dom σ)), (<[fresh (dom σ) := g]> σ).
  split; [by apply getCurrentGeneration_spec|].
  split; [apply lookup_insert_eq|]. split; [apply insert_fresh_subseteq|].
  intros arr. rewrite insert_insert_eq.
  rewrite !lookup_insert_ne; [done|..];
    apply not_eq_sym; eapply fresh_loc_ne; eassumption.
Qed.

(** C3. After [new ElementaryCellularAutomaton(90, 7)], the reference that
    [nextGeneration] returns is the instance's own [generation]: the
    caller's assignment [returned[0] = 1] turns the current generation of
    the instance from [0,0,1,0,1,0,0] into [1,0,1,0,1,0,0]. *)
Theorem nextGeneration_result_aliases_state :
  ∃ this σ l this' σ' σ'',
    constructor 90 (Qc_of_Z 7) None ∅ = JS.Ok (this, σ) ∧
    nextGeneration this σ = JS.Ok ((l, this'), σ') ∧
    l = generation this' ∧
    σ' !! generation this' = Some (bit <$> [0; 0; 1; 0; 1; 0; 0]) ∧
    write l 0 (JS.Num 1) σ' = JS.Ok (tt, σ'') ∧
    σ'' !! generation this' = Some (bit <$> [1; 0; 1; 0; 1; 0; 0]).
Proof.
  eexists _, _, _, _, _, _.
  split; [vm_compute; reflexivity|]. split; [vm_compute; reflexivity|].
  repeat split; vm_compute; reflexivity.
Qed.

(** ** Errors of the constructor *)

Lemma constructor_rule_error (σ : store) r width init :
  r < 0 ∨ 255 < r →
  constructor r width init σ = JS.Throw (JS.Error rule_error).
Proof.
  intros Hr. unfold constructor.
  destruct Hr; [rewrite (bool_decide_eq_true_2 (r < 0)) by done
               |rewrite (bool_decide_eq_true_2 (r > 255)) by lia];
    by rewrite ?orb_true_r.
Qed.

Lemma constructor_width_error (σ : store) r width init :
  0 ≤ r ≤ 255 → (width ≤ 0)%Qc →
  constructor r width init σ = JS.Throw (JS.Error width_error).
Proof.
  intros Hr Hw. unfold constructor.
  rewrite !bool_decide_eq_false_2 by lia. cbn [orb].
  assert (JS.leb width 0 = true) as -> by (by apply Qle_bool_iff).
  reflexivity.
Qed.

Lemma Array_only_RangeError n : only_RangeError (JS.Array n).
Proof. intros e. unfold JS.Array. by case_match; intros [= <-]. Qed.

Lemma filled_Array_only_RangeError n :
  only_RangeError
    (JS.Array n ≫= λ arr, mret (JS.fill arr (JS.Num 0))).
Proof.
  intros e. pose proof (Array_only_RangeError n e) as H.
  unfold mbind, JS.result_bind, mret, JS.result_ret.
  destruct (JS.Array n); [done|]. intros [= <-]. by apply H.
Qed.

Lemma bind_lift_only_RangeError {A B} (r : JS.result A) (k : A → M B)
    (σ : store) :
  only_RangeError r → (∀ x, only_RangeError (k x σ)) →
  only_RangeError ((lift r ≫= k) σ).
Proof.
  intros Hr Hk e. unfold mbind, M_bind, lift.
  destruct r as [x|e']; [apply Hk|]. intros [= <-]. by apply Hr.
Qed.

(** With a valid rule number, any positive width, integer or not, gets past
    both checks. *)
Lemma constructor_positive_width (σ : store) r width init :
  0 ≤ r ≤ 255 → (0 < width)%Qc →
  only_RangeError (constructor r width init σ).
Proof.
  intros Hr Hw. unfold constructor.
  rewrite !bool_decide_eq_false_2 by lia. cbn [orb].
  assert (JS.leb width 0 = false) as ->.
  { destruct (JS.leb width 0) eqn:E; [|done].
    apply Qle_bool_iff in E. by apply Qcle_not_lt in E. }
  rewrite bind_alloc.
  set (σ1 := <[_ := _]> σ). set (l1 := fresh (dom σ)).
  assert (Hrest : ∀ gen (σ2 : store), only_RangeError
    ((alloc gen ≫= λ generation,
      if negb (JS.eqb (JS.length gen) width) then
        if JS.ltb (JS.length gen) width then
          let diff := (width - JS.length gen)%Qc in
          padding ← lift (arr ← JS.Array (Qc_of_Z (JS.floor (diff / 2)));
                          mret (JS.fill arr (JS.Num 0)));
          suffix ← lift (arr ← JS.Array (diff - JS.length padding)%Qc;
                         mret (JS.fill arr (JS.Num 0)));
          generation ← alloc (padding ++ gen ++ suffix);
          mret (Automaton l1 width generation)
        else
          generation ← alloc (JS.slice0 gen width);
          mret (Automaton l1 width generation)
      else mret (Automaton l1 width generation)) σ2)).
  { intros gen σ2. rewrite bind_alloc.
    destruct (negb _); [|by intros e].
    destruct (JS.ltb _ _); [|by intros e].
    apply bind_lift_only_RangeError;
      [apply filled_Array_only_RangeError|intros padding].
    apply bind_lift_only_RangeError;
      [apply filled_Array_only_RangeError|intros suffix]. by intros e. }
  destruct init as [cells|].
  - rewrite bind_ret. apply Hrest.
  - apply bind_lift_only_RangeError; [|intros gen; apply Hrest].
    unfold _createInitialGeneration. intros e.
    pose proof (Array_only_RangeError width e) as H.
    unfold mbind, JS.result_bind, mret, JS.result_ret.
    destruct (JS.Array width); [done|]. intros [= <-]. by apply H.
Qed.

(** So the error of the width check is thrown exactly when the rule number
    is valid and [width <= 0]. *)
Lemma constructor_width_error_iff (σ : store) r width init :
  constructor r width init σ = JS.Throw (JS.Error width_error)
  ↔ 0 ≤ r ≤ 255 ∧ (width ≤ 0)%Qc.
Proof.
  split.
  - intros Hc.
    destruct (decide (0 ≤ r ≤ 255)) as [Hr|Hr].
    + split; [done|]. apply Qcnot_lt_le. intros Hw.
      by pose proof (constructor_positive_width σ r width init Hr Hw _ Hc).
    + rewrite constructor_rule_error in Hc by lia. by inversion Hc.
  - intros [Hr Hw]. by apply constructor_width_error.
Qed.

Lemma constructor_rule_error_iff (σ : store) r width init :
  constructor r width init σ = JS.Throw (JS.Error rule_error)
  ↔ r < 0 ∨ 255 < r.
Proof.
  split; [|apply constructor_rule_error].
  intros Hc. destruct (decide (0 ≤ r ≤ 255)) as [Hr|Hr]; [|lia].
  destruct (Qclt_le_dec 0 width) as [Hw|Hw].
  - by pose proof (constructor_positive_width σ r width init Hr Hw _ Hc).
  - rewrite constructor_width_error in Hc by done. by inversion Hc.
Qed.

Example constructor_validation_examples (σ : store) init :
  constructor (-1) (Qc_of_Z 10) init σ = JS.Throw (JS.Error rule_error) ∧
  constructor 256 (Qc_of_Z 10) init σ = JS.Throw (JS.Error rule_error) ∧
  constructor 90 (Qc_of_Z 0) init σ = JS.Throw (JS.Error width_error) ∧
  constructor 90 (Qc_of_Z (-5)) init σ = JS.Throw (JS.Error width_error).
Proof. repeat split; reflexivity. Qed.

(** C4. The width 2.5 is no positive integer, yet the check [width <= 0]
    lets it through: with three initial cells the constructor returns an
    instance of width 2.5 holding two cells, and without initial cells
    [Array(2.5)] throws a [RangeError], not the error of the width check. *)
Theorem constructor_accepts_fractional_width :
  (∃ this σ',
     constructor 90 (Q2Qc (5 # 2)) (Some (bit <$> [1; 1; 1])) ∅
       = JS.Ok (this, σ') ∧
     width this = Q2Qc (5 # 2) ∧
     σ' !! generation this = Some (bit <$> [1; 1])) ∧
  constructor 90 (Q2Qc (5 # 2)) None ∅ = JS.Throw JS.RangeError.
Proof.
  split; [eexists _, _; repeat split|]; vm_compute; reflexivity.
Qed.

(** * The engine, property by property *)

Lemma sample_valid r w g :
  0 ≤ r ≤ 255 → 0 < w → Z.of_nat (List.length g) = w →
  Forall (λ b, b = 0 ∨ b = 1) g →
  valid (sample_store r g) (sample_instance w) w (_getRuleArray r) (bit <$> g).
Proof.
  intros Hr Hw Hlen Hg. split; trivial.
  - by apply getRuleArray_length.
  - by apply getRuleArray_is_bits.
  - by rewrite length_fmap.
  - apply Forall_fmap. eapply Forall_impl; [exact Hg|].
    intros b [-> | ->]; [by left | by right].
Qed.

(** C2. An automaton of rule 90 and width 7 whose current generation is
    [0,0,0,1,0,0,0] moves, by one call of [nextGeneration], to exactly
    [0,0,1,0,1,0,0]: the call returns a reference to these cells, and they
    are the current generation of the instance afterwards. *)
Theorem rule90_width7_step (σ : store) this :
  width this = Qc_of_Z 7 →
  σ !! rule this = Some (_getRuleArray 90) →
  σ !! generation this = Some (bit <$> [0; 0; 0; 1; 0; 0; 0]) →
  ∃ l this' σ',
    nextGeneration this σ = JS.Ok ((l, this'), σ') ∧
    σ' !! l = Some (bit <$> [0; 0; 1; 0; 1; 0; 0]) ∧
    σ' !! generation this' = Some (bit <$> [0; 0; 1; 0; 1; 0; 0]).
Proof.
  intros Hw HR Hg.
  eexists _, _, _. split.
  - apply (nextGeneration_spec σ this 7 _ _ Hw ltac:(lia) HR Hg).
  - simpl. rewrite lookup_insert_eq. by split.
Qed.

Lemma rule90_width7_step_witness :
  ∃ l this' σ',
    nextGeneration (sample_instance 7) (sample_store 90 [0; 0; 0; 1; 0; 0; 0])
      = JS.Ok ((l, this'), σ') ∧
    σ' !! l = Some (bit <$> [0; 0; 1; 0; 1; 0; 0]) ∧
    σ' !! generation this' = Some (bit <$> [0; 0; 1; 0; 1; 0; 0]).
Proof.
  apply (rule90_width7_step (sample_store 90 [0; 0; 0; 1; 0; 0; 0])
           (sample_instance 7)); reflexivity.
Defined.

(** The same step from the constructor on: [new
    ElementaryCellularAutomaton(90, 7)] starts from the single seed. *)
Example rule90_width7_constructed :
  ∃ this σ l this' σ',
    constructor 90 (Qc_of_Z 7) None ∅ = JS.Ok (this, σ) ∧
    σ !! generation this = Some (bit <$> [0; 0; 0; 1; 0; 0; 0]) ∧
    nextGeneration this σ = JS.Ok ((l, this'), σ') ∧
    σ' !! generation this' = Some (bit <$> [0; 0; 1; 0; 1; 0; 0]).
Proof. eexists _, _, _, _, _. repeat split; vm_compute; reflexivity. Qed.

Lemma next_cell_neighbours R (g : list JS.value) w i :
  Z.of_nat (List.length g) = w → 0 ≤ i < w →
  ∃ left middle right,
    g !! Z.to_nat ((i - 1 + w) mod w) = Some left ∧
    g !! Z.to_nat i = Some middle ∧
    g !! Z.to_nat ((i + 1) mod w) = Some right ∧
    next_cell R g w i =
      JS.get R (JS.sub (JS.Num 7) (neighborhoodIndex left middle right)).
Proof.
  intros Hlen Hi. unfold next_cell.
  rewrite left_index_mod, right_index_mod by done.
  destruct (get_in_range g ((i - 1 + w) mod w)) as (l & Hl & ->).
  { rewrite Hlen. apply Z.mod_pos_bound. lia. }
  destruct (get_in_range g i) as (m & Hm & ->); [lia|].
  destruct (get_in_range g ((i + 1) mod w)) as (r & Hr & ->).
  { rewrite Hlen. apply Z.mod_pos_bound. lia. }
  by exists l, m, r.
Qed.

(** C5. On an instance of width [w] whose generation [g] has [w] cells,
    [nextGeneration] builds a new array [g'] of [w] cells in which cell [i]
    is the rule array's entry for the neighbourhood [left = g[(i-1+w) mod w]],
    [middle = g[i]], [right = g[(i+1) mod w]] of the generation before the
    step.  The new array sits at a reference the heap did not hold, so every
    cell is computed from the untouched old generation, which is still in the
    heap afterwards; the instance then points at the new array. *)
Theorem nextGeneration_periodic_snapshot (σ : store) this w R g :
  width this = Qc_of_Z w → 0 < w →
  σ !! rule this = Some R →
  σ !! generation this = Some g →
  Z.of_nat (List.length g) = w →
  ∃ l g' this' σ',
    nextGeneration this σ = JS.Ok ((l, this'), σ') ∧
    σ !! l = None ∧
    σ' = <[l := g']> σ ∧
    σ' !! generation this = Some g ∧
    this' = set_generation this l ∧
    σ' !! generation this' = Some g' ∧
    Z.of_nat (List.length g') = w ∧
    ∀ i, 0 ≤ i < w →
      ∃ left middle right,
        g !! Z.to_nat ((i - 1 + w) mod w) = Some left ∧
        g !! Z.to_nat i = Some middle ∧
        g !! Z.to_nat ((i + 1) mod w) = Some right ∧
        g' !! Z.to_nat i =
          Some (JS.get R (JS.sub (JS.Num 7)
                            (neighborhoodIndex left middle right))).
Proof.
  intros Hw Hpos HR Hg Hlen.
  exists (fresh (dom σ)), (next_cells R g w). eexists _, _.
  split; [apply (nextGeneration_spec σ this w R g Hw ltac:(lia) HR Hg)|].
  split; [apply fresh_loc_None|]. split; [done|]. split.
  { rewrite lookup_insert_ne; [done|].
    apply not_eq_sym. by apply (fresh_loc_ne σ _ _ Hg). }
  split; [done|]. split; [apply lookup_insert_eq|]. split.
  { rewrite next_cells_length. lia. }
  intros i Hi.
  destruct (next_cell_neighbours R g w i Hlen Hi)
    as (l & m & r & Hl & Hm & Hr & Hcell).
  exists l, m, r. repeat split; trivial.
  rewrite next_cells_lookup by lia. rewrite Z2Nat.id by lia. by rewrite Hcell.
Qed.

Lemma nextGeneration_periodic_snapshot_witness :
  ∃ l g' this' σ',
    nextGeneration (sample_instance 3) (sample_store 30 [1; 0; 0])
      = JS.Ok ((l, this'), σ') ∧
    sample_store 30 [1; 0; 0] !! l = None ∧
    σ' = <[l := g']> (sample_store 30 [1; 0; 0]) ∧
    σ' !! generation (sample_instance 3) = Some (bit <$> [1; 0; 0]) ∧
    this' = set_generation (sample_instance 3) l ∧
    σ' !! generation this' = Some g' ∧
    Z.of_nat (List.length g') = 3 ∧
    ∀ i, 0 ≤ i < 3 →
      ∃ left middle right,
        (bit <$> [1; 0; 0]) !! Z.to_nat ((i - 1 + 3) mod 3) = Some left ∧
        (bit <$> [1; 0; 0]) !! Z.to_nat i = Some middle ∧
        (bit <$> [1; 0; 0]) !! Z.to_nat ((i + 1) mod 3) = Some right ∧
        g' !! Z.to_nat i =
          Some (JS.get (_getRuleArray 30)
                  (JS.sub (JS.Num 7) (neighborhoodIndex left middle right))).
Proof.
  apply (nextGeneration_periodic_snapshot (sample_store 30 [1; 0; 0])
           (sample_instance 3) 3 (_getRuleArray 30) (bit <$> [1; 0; 0]));
    reflexivity || lia.
Defined.

(** C6. Given an [initialGeneration] of [len] cells, the constructor (with a
    rule number in [0,255] and a positive integer width [w] below [2^32], the
    lengths an array can have) stores: the cells
    themselves when [len = w]; when [len < w], [floor((w - len)/2)] zeros,
    then the cells, then the remaining [(w - len) - floor((w - len)/2)]
    zeros; when [len > w], the first [w] cells.  In particular
    [construct(90, 7, [1,1])] stores [0,0,1,1,0,0,0]. *)
Theorem constructor_adjusts_initialGeneration :
  (∀ (σ : store) r w cells,
     0 ≤ r ≤ 255 → 0 < w < 2 ^ 32 →
     let len := Z.of_nat (List.length cells) in
     ∃ this σ' g,
       constructor r (Qc_of_Z w) (Some cells) σ = JS.Ok (this, σ') ∧
       σ' !! generation this = Some g ∧
       (len = w → g = cells) ∧
       (len < w →
        g = replicate (Z.to_nat ((w - len) / 2)) (JS.Num 0) ++ cells ++
            replicate (Z.to_nat ((w - len) - (w - len) / 2)) (JS.Num 0)) ∧
       (len > w → g = take (Z.to_nat w) cells)) ∧
  (∀ σ : store, ∃ this σ',
     constructor 90 (Qc_of_Z 7) (Some (bit <$> [1; 1])) σ = JS.Ok (this, σ') ∧
     σ' !! generation this = Some (bit <$> [0; 0; 1; 1; 0; 0; 0])).
Proof.
  split.
  - intros σ r w cells Hr [Hw _] len.
    destruct (constructor_spec σ r w (Some cells) Hr Hw)
      as (this & σ' & Hc & _ & _ & _ & Hg & _).
    exists this, σ', (initial_cells w (Some cells)).
    split; [done|]. split; [done|]. simpl. fold len.
    destruct (Z.eqb_spec len w); [repeat split; intros; by try lia|].
    destruct (Z.ltb_spec len w); repeat split; intros; by try lia.
  - intros σ.
    destruct (constructor_spec σ 90 7 (Some (bit <$> [1; 1])))
      as (this & σ' & Hc & _ & _ & _ & Hg & _); [lia..|].
    by exists this, σ'.
Qed.

Lemma constructor_adjusts_initialGeneration_witness :
  ∃ this σ' g,
    constructor 110 (Qc_of_Z 4) (Some (bit <$> [1; 0; 1; 1; 0; 1])) ∅
      = JS.Ok (this, σ') ∧
    σ' !! generation this = Some g ∧
    g = bit <$> [1; 0; 1; 1].
Proof.
  destruct (proj1 constructor_adjusts_initialGeneration ∅ 110 4
              (bit <$> [1; 0; 1; 1; 0; 1]))
    as (this & σ' & g & Hc & Hg & _ & _ & Hcut); [lia..|].
  exists this, σ', g. split; [exact Hc|]. split; [exact Hg|].
  apply Hcut. simpl. lia.
Defined.

(** C8. Without an [initialGeneration], the constructor (with a rule number
    in [0,255] and a positive integer width [w] below [2^32], the lengths an
    array can have) stores [w] cells that are all [0] but the one at index
    [floor(w/2)], which is [1]. *)
Theorem constructor_default_generation (σ : store) r w :
  0 ≤ r ≤ 255 → 0 < w < 2 ^ 32 →
  ∃ this σ' g,
    constructor r (Qc_of_Z w) None σ = JS.Ok (this, σ') ∧
    σ' !! generation this = Some g ∧
    Z.of_nat (List.length g) = w ∧
    ∀ i, 0 ≤ i < w →
      g !! Z.to_nat i = Some (JS.Num (if bool_decide (i = w / 2) then 1 else 0)).
Proof.
  intros Hr [Hw _].
  destruct (constructor_spec σ r w None Hr Hw)
    as (this & σ' & Hc & _ & _ & _ & Hg & _).
  exists this, σ', (initial_cells w None).
  split; [done|]. split; [done|]. split; [by apply initial_cells_length|].
  intros i Hi. simpl. unfold zeros.
  assert (0 ≤ w / 2 < w)
    by (split; [apply Z.div_pos | apply Z.div_lt_upper_bound]; lia).
  case_bool_decide as Hmid.
  - subst i. apply list_lookup_insert_eq. rewrite length_replicate. lia.
  - rewrite list_lookup_insert_ne by lia.
    apply lookup_replicate_2. lia.
Qed.

Lemma constructor_default_generation_witness :
  ∃ this σ' g,
    constructor 30 (Qc_of_Z 6) None ∅ = JS.Ok (this, σ') ∧
    σ' !! generation this = Some g ∧
    Z.of_nat (List.length g) = 6 ∧
    ∀ i, 0 ≤ i < 6 →
      g !! Z.to_nat i = Some (JS.Num (if bool_decide (i = 6 / 2) then 1 else 0)).
Proof. apply (constructor_default_generation ∅ 30 6); lia. Defined.

(** C7. From a constructor call with a rule number in [0,255], a positive
    integer width [w] below [2^32] (the lengths an array can have) and, if
    any, initial cells that are all 0 or 1, every
    number [n] of [nextGeneration] calls succeeds and leaves an instance of
    the same width whose generation has exactly [w] cells, each 0 or 1, and
    whose rule array is the array [R] of 8 entries, each 0 or 1, that the
    constructor stored. *)
Theorem instance_invariant (σ : store) r w init :
  0 ≤ r ≤ 255 → 0 < w < 2 ^ 32 →
  (∀ cells, init = Some cells → bits cells) →
  ∃ this σ0 R,
    constructor r (Qc_of_Z w) init σ = JS.Ok (this, σ0) ∧
    σ0 !! rule this = Some R ∧
    List.length R = 8%nat ∧ bits R ∧
    ∀ n, ∃ this' σ' g,
      steps n this σ0 = JS.Ok (this', σ') ∧
      width this' = Qc_of_Z w ∧
      rule this' = rule this ∧
      σ' !! rule this' = Some R ∧
      σ' !! generation this' = Some g ∧
      Z.of_nat (List.length g) = w ∧ bits g.
Proof.
  intros Hr [Hw _] Hinit.
  destruct (constructor_valid σ r w init Hr Hw Hinit) as (this & σ0 & Hc & Hv).
  exists this, σ0, (_getRuleArray r).
  split; [done|]. destruct Hv as [? ? ? ? ? ? ? ?] eqn:E. clear E.
  repeat split; trivial.
  intros n. destruct (steps_valid n σ0 this w _ _ Hv)
    as (this' & σ' & g' & Hsteps & [? ? ? ? ? ? ? ?] & Hrule).
  by exists this', σ', g'.
Qed.

Lemma instance_invariant_witness :
  ∃ this σ0 R,
    constructor 110 (Qc_of_Z 5) (Some (bit <$> [1; 1])) ∅ = JS.Ok (this, σ0) ∧
    σ0 !! rule this = Some R ∧
    List.length R = 8%nat ∧ bits R ∧
    ∀ n, ∃ this' σ' g,
      steps n this σ0 = JS.Ok (this', σ') ∧
      width this' = Qc_of_Z 5 ∧
      rule this' = rule this ∧
      σ' !! rule this' = Some R ∧
      σ' !! generation this' = Some g ∧
      Z.of_nat (List.length g) = 5 ∧ bits g.
Proof.
  apply (instance_invariant ∅ 110 5 (Some (bit <$> [1; 1]))); [lia | lia |].
  intros cells [= <-]. unfold bits. solve_bits.
Defined.

(** The watched accesses agree with the plain ones inside the array. *)
Lemma read_strict_at (σ : store) l arr k :
  σ !! l = Some arr → in_range arr k = true →
  read_strict l k σ = JS.Ok (JS.get arr k, σ).
Proof. intros H Hk. unfold read_strict. unfold_monad. by rewrite H, Hk. Qed.

Lemma write_strict_at (σ : store) l arr i v :
  σ !! l = Some arr → in_range arr (JS.Num i) = true →
  write_strict l i v σ = JS.Ok (tt, <[l := JS.set arr i v]> σ).
Proof. intros H Hi. unfold write_strict. by rewrite H, Hi. Qed.

Lemma in_range_Num (arr : list JS.value) i :
  0 ≤ i < Z.of_nat (List.length arr) → in_range arr (JS.Num i) = true.
Proof.
  intros Hi. unfold in_range.
  by rewrite (proj2 (Z.leb_le 0 i)), (proj2 (Z.ltb_lt i _)) by lia.
Qed.

Section strict_loop.
Context (this : automaton) (nextGen : loc) (w : Z) (R g : list JS.value).
Hypothesis Hrule : rule this ≠ nextGen.
Hypothesis Hgen : generation this ≠ nextGen.
Hypothesis HR8 : List.length R = 8%nat.
Hypothesis Hlen : Z.of_nat (List.length g) = w.
Hypothesis Hbits : bits g.

Lemma nextGeneration_body_strict_at (σ : store) (cells : list JS.value) n :
  σ !! rule this = Some R →
  σ !! generation this = Some g →
  σ !! nextGen = Some (cells ++ replicate (S n) (JS.Num 0)) →
  let i := Z.of_nat (List.length cells) in
  i < w →
  nextGeneration_body_with read_strict write_strict this nextGen w i σ =
  JS.Ok (tt, <[nextGen := (cells ++ [next_cell R g w i]) ++
                          replicate n (JS.Num 0)]> σ).
Proof.
  intros HR Hg Hn i Hi. unfold nextGeneration_body_with, next_cell.
  assert (Hi' : 0 ≤ i < w) by lia.
  rewrite left_index_mod, right_index_mod by done.
  assert (0 ≤ (i - 1 + w) mod w < w) by (apply Z.mod_pos_bound; lia).
  assert (0 ≤ (i + 1) mod w < w) by (apply Z.mod_pos_bound; lia).
  destruct (get_bit g ((i - 1 + w) mod w) Hbits) as (l & _ & Hl & Hl01);
    [lia|].
  destruct (get_bit g i Hbits) as (m & _ & Hm & Hm01); [lia|].
  destruct (get_bit g ((i + 1) mod w) Hbits) as (r & _ & Hr & Hr01); [lia|].
  unfold mbind at 1, M_bind.
  rewrite (read_strict_at _ _ _ _ Hg) by (apply in_range_Num; lia).
  unfold mbind at 1, M_bind.
  rewrite (read_strict_at _ _ _ _ Hg) by (apply in_range_Num; lia).
  unfold mbind at 1, M_bind.
  rewrite (read_strict_at _ _ _ _ Hg) by (apply in_range_Num; lia).
  rewrite Hl, Hm, Hr, neighborhoodIndex_bits by done.
  pose proof (triple_value_range l m r Hl01 Hm01 Hr01). cbn [JS.sub].
  unfold mbind at 1, M_bind.
  rewrite (read_strict_at _ _ _ _ HR) by (apply in_range_Num; lia).
  rewrite (write_strict_at _ _ _ _ _ Hn).
  - unfold i. by rewrite set_next_cell.
  - apply in_range_Num. rewrite length_app, length_replicate. lia.
Qed.

Lemma for_loop_strict_cells n : ∀ (σ : store) (cells : list JS.value),
  σ !! rule this = Some R →
  σ !! generation this = Some g →
  σ !! nextGen = Some (cells ++ replicate n (JS.Num 0)) →
  Z.of_nat (List.length cells) + Z.of_nat n ≤ w →
  for_loop n (Z.of_nat (List.length cells))
    (nextGeneration_body_with read_strict write_strict this nextGen w) σ =
  JS.Ok (tt, <[nextGen := cells ++
                 ((λ j, next_cell R g w (Z.of_nat j)) <$>
                    seq (List.length cells) n)]> σ).
Proof.
  induction n as [|n IH]; intros σ cells HR Hg Hn Hle.
  - simpl in *. unfold_monad. by rewrite insert_id.
  - simpl for_loop. unfold mbind, M_bind.
    rewrite (nextGeneration_body_strict_at σ cells n HR Hg Hn) by lia.
    replace (Z.of_nat (List.length cells) + 1)
      with (Z.of_nat (List.length (cells ++ [next_cell R g w
               (Z.of_nat (List.length cells))])))
      by (rewrite length_app; simpl; lia).
    rewrite IH.
    + rewrite insert_insert_eq, length_app, <- app_assoc. simpl.
      by rewrite Nat.add_1_r.
    + by rewrite lookup_insert_ne.
    + by rewrite lookup_insert_ne.
    + by rewrite lookup_insert_eq.
    + rewrite length_app. simpl. lia.
Qed.
End strict_loop.

(** On a well-formed instance the watched run is the plain run. *)
Lemma nextGeneration_strict_spec (σ : store) this w R g :
  valid σ this w R g →
  nextGeneration_strict this σ = nextGeneration this σ.
Proof.
  intros [Hw Hpos HR HR8 HRb Hg Hlen Hgb].
  rewrite (nextGeneration_spec σ this w R g Hw ltac:(lia) HR Hg).
  unfold nextGeneration_strict, nextGeneration_with.
  rewrite Hw, Array_of_Z, floor_of_Z by lia.
  unfold mbind at 1, M_bind, lift.
  unfold mbind at 1, M_bind, alloc. set (l := fresh (dom σ)).
  unfold mbind at 1, M_bind.
  unfold JS.fill. rewrite length_replicate.
  pose proof (fresh_loc_ne σ _ _ HR) as Hl1.
  pose proof (fresh_loc_ne σ _ _ Hg) as Hl2. fold l in Hl1, Hl2.
  rewrite (for_loop_strict_cells this l w R g Hl1 Hl2 HR8 Hlen Hgb _ _ []);
    simpl.
  - unfold mret, M_ret. by rewrite insert_insert_eq.
  - by rewrite lookup_insert_ne.
  - by rewrite lookup_insert_ne.
  - by rewrite lookup_insert_eq.
  - lia.
Qed.

(** C9. On a well-formed instance (integer width [w > 0], a rule array of 8
    bits, a generation of [w] bits) both methods return normally:
    [nextGeneration] yields a reference to [w] cells, each 0 or 1, and
    [getCurrentGeneration] a reference to a sequence equal to the current
    generation.  Every access of [nextGeneration] to an array element is in
    bounds: run with accesses that throw outside the array, the method
    returns the very same result ([getCurrentGeneration] copies the array
    as a whole and makes no access by index). *)
Theorem methods_total (σ : store) this w R g :
  valid σ this w R g →
  (∃ l this' σ' g',
     nextGeneration this σ = JS.Ok ((l, this'), σ') ∧
     σ' !! l = Some g' ∧ Z.of_nat (List.length g') = w ∧ bits g') ∧
  (∃ l σ',
     getCurrentGeneration this σ = JS.Ok (l, σ') ∧
     σ' !! l = Some g ∧ Z.of_nat (List.length g) = w ∧ bits g) ∧
  (∃ result σ',
     nextGeneration_strict this σ = JS.Ok (result, σ') ∧
     nextGeneration this σ = JS.Ok (result, σ')).
Proof.
  intros Hv. split; [|split].
  - destruct (nextGeneration_valid σ this w R g Hv) as (l & Hstep & _ & Hv').
    destruct Hv' as [_ _ _ _ _ Hg' Hlen' Hb'].
    by eexists l, _, _, _.
  - destruct Hv as [_ _ _ _ _ Hg Hlen Hb].
    exists (fresh (dom σ)), (<[fresh (dom σ) := g]> σ).
    split; [by apply getCurrentGeneration_spec|].
    split; [apply lookup_insert_eq|done].
  - destruct (nextGeneration_valid σ this w R g Hv) as (l & Hstep & _ & _).
    eexists _, _. split; [|exact Hstep].
    by rewrite (nextGeneration_strict_spec σ this w R g Hv).
Qed.

Lemma methods_total_witness :
  let σ := sample_store 30 [1; 0; 0] in
  let this := sample_instance 3 in
  let g := bit <$> [1; 0; 0] in
  (∃ l this' σ' g',
     nextGeneration this σ = JS.Ok ((l, this'), σ') ∧
     σ' !! l = Some g' ∧ Z.of_nat (List.length g') = 3 ∧ bits g') ∧
  (∃ l σ',
     getCurrentGeneration this σ = JS.Ok (l, σ') ∧
     σ' !! l = Some g ∧ Z.of_nat (List.length g) = 3 ∧ bits g) ∧
  (∃ result σ',
     nextGeneration_strict this σ = JS.Ok (result, σ') ∧
     nextGeneration this σ = JS.Ok (result, σ')).
Proof.
  apply (methods_total (sample_store 30 [1; 0; 0]) (sample_instance 3) 3
           (_getRuleArray 30) (bit <$> [1; 0; 0])).
  apply sample_valid; [lia | lia | reflexivity | solve_bits].
Defined.

(** The watch is not idle: on three cells where the instance says four, the
    plain run reads [undefined] beyond the end and returns, the watched run
    throws. *)
Example nextGeneration_strict_throws :
  nextGeneration_strict (sample_instance 4) (sample_store 30 [1; 0; 0])
  = JS.Throw JS.RangeError ∧
  ∃ result σ',
    nextGeneration (sample_instance 4) (sample_store 30 [1; 0; 0])
    = JS.Ok (result, σ').
Proof. split; [|eexists _, _]; vm_compute; reflexivity. Qed.

(** C10. A step commutes with turning the ring: on two well-formed instances
    with the same rule array and width whose generations are [g] and [g]
    turned by [k] places, [nextGeneration] produces [g'] and [g'] turned by
    [k] places. *)
Theorem nextGeneration_rotation (σ1 σ2 : store) this1 this2 w R g k :
  valid σ1 this1 w R g →
  valid σ2 this2 w R (rotation k g) →
  ∃ l1 this1' σ1' l2 this2' σ2' g',
    nextGeneration this1 σ1 = JS.Ok ((l1, this1'), σ1') ∧
    nextGeneration this2 σ2 = JS.Ok ((l2, this2'), σ2') ∧
    σ1' !! l1 = Some g' ∧
    σ2' !! l2 = Some (rotation k g').
Proof.
  intros Hv1 Hv2.
  destruct (nextGeneration_valid _ _ _ _ _ Hv1) as (l1 & Hs1 & _ & _).
  destruct (nextGeneration_valid _ _ _ _ _ Hv2) as (l2 & Hs2 & _ & _).
  eexists l1, _, _, l2, _, _, (next_cells R g w).
  split; [exact Hs1|]. split; [exact Hs2|].
  rewrite !lookup_insert_eq. split; [done|].
  destruct Hv1. by rewrite next_cells_rotation.
Qed.

Lemma nextGeneration_rotation_witness :
  ∃ l1 this1' σ1' l2 this2' σ2' g',
    nextGeneration (sample_instance 5) (sample_store 30 [1; 1; 0; 0; 0])
      = JS.Ok ((l1, this1'), σ1') ∧
    nextGeneration (sample_instance 5) (sample_store 30 [0; 0; 0; 1; 1])
      = JS.Ok ((l2, this2'), σ2') ∧
    σ1' !! l1 = Some g' ∧
    σ2' !! l2 = Some (rotation 2 g').
Proof.
  apply (nextGeneration_rotation (sample_store 30 [1; 1; 0; 0; 0])
           (sample_store 30 [0; 0; 0; 1; 1]) (sample_instance 5)
           (sample_instance 5) 5 (_getRuleArray 30) (bit <$> [1; 1; 0; 0; 0]) 2).
  - apply sample_valid; [lia | lia | reflexivity | solve_bits].
  - apply (sample_valid 30 5 [0; 0; 0; 1; 1]);
      [lia | lia | reflexivity | solve_bits].
Defined.

(** * Further properties of the code *)

(** ** The rule array *)

Lemma decode_getRuleArray r : 0 ≤ r ≤ 255 → decode_rule (_getRuleArray r) = r.
Proof.
  intros Hr.
  assert (Hall : forallb (λ r, decode_rule (_getRuleArray r) =? r)
                   (seqZ 0 256) = true) by (vm_compute; reflexivity).
  rewrite forallb_forall in Hall.
  apply Z.eqb_eq, Hall, list_elem_of_In, elem_of_seqZ. lia.
Qed.

(** X1. The rule array spells the rule number: reading entry [k] as bit [k]
    gives the rule number back, so two rule numbers in [0,255] with the same
    array are equal. *)
Theorem getRuleArray_round_trip :
  (∀ r, 0 ≤ r ≤ 255 → decode_rule (_getRuleArray r) = r) ∧
  (∀ r1 r2, 0 ≤ r1 ≤ 255 → 0 ≤ r2 ≤ 255 →
     _getRuleArray r1 = _getRuleArray r2 → r1 = r2).
Proof.
  split; [apply decode_getRuleArray|].
  intros r1 r2 H1 H2 Heq.
  rewrite <- (decode_getRuleArray r1 H1), <- (decode_getRuleArray r2 H2).
  by rewrite Heq.
Qed.

Lemma getRuleArray_round_trip_witness :
  decode_rule (_getRuleArray 110) = 110.
Proof. apply (proj1 getRuleArray_round_trip 110). lia. Defined.

Lemma chars_pos_digits2 p : ∀ acc,
  list_ascii_of_string (JS.pos_digits2 p acc)
  = reverse (pos_chars p) ++ list_ascii_of_string acc.
Proof.
  induction p as [p IH|p IH|]; intros acc; simpl.
  - rewrite IH, reverse_cons, <- app_assoc. reflexivity.
  - rewrite IH, reverse_cons, <- app_assoc. reflexivity.
  - reflexivity.
Qed.

Lemma string_length_chars s :
  String.length s = List.length (list_ascii_of_string s).
Proof. induction s; simpl; congruence. Qed.

Lemma chars_repeat_char n c s :
  list_ascii_of_string (JS.repeat_char n c s)
  = replicate n c ++ list_ascii_of_string s.
Proof. induction n; simpl; congruence. Qed.

Lemma getRuleArray_pos p :
  _getRuleArray (Zpos p)
  = (JS.Number <$> pos_chars p)
    ++ replicate (8 - List.length (pos_chars p)) (JS.Num 0).
Proof.
  unfold _getRuleArray, JS.split_chars, JS.padStart. simpl JS.toString2.
  rewrite chars_repeat_char, string_length_chars, chars_pos_digits2.
  simpl list_ascii_of_string. rewrite app_nil_r, length_reverse.
  change (map JS.Number) with (fmap (M:=list) JS.Number).
  rewrite fmap_app, reverse_app, fmap_reverse, reverse_involutive.
  rewrite fmap_replicate, reverse_replicate. reflexivity.
Qed.

Lemma pos_chars_length p :
  Z.of_nat (List.length (pos_chars p)) = Z.log2 (Zpos p) + 1.
Proof.
  induction p as [p IH|p IH|]; [| |reflexivity].
  - cbn [pos_chars List.length]. rewrite Nat2Z.inj_succ, IH.
    rewrite Pos2Z.inj_xI, Z.log2_succ_double by lia. lia.
  - cbn [pos_chars List.length]. rewrite Nat2Z.inj_succ, IH.
    rewrite Pos2Z.inj_xO, Z.log2_double by lia. lia.
Qed.

Lemma pos_chars_lookup p : ∀ k : nat,
  (k < List.length (pos_chars p))%nat →
  (JS.Number <$> pos_chars p) !! k
  = Some (JS.Num (wolfram_bit (Zpos p) (Z.of_nat k))).
Proof.
  unfold wolfram_bit.
  induction p as [p IH|p IH|]; intros [|k] Hk; simpl in Hk; try lia;
    try reflexivity.
  - cbn [pos_chars fmap list_fmap lookup list_lookup].
    rewrite IH by lia. rewrite Nat2Z.inj_succ.
    change (Z.pos p~1) with (2 * Z.pos p + Z.b2z true).
    by rewrite Z.testbit_succ_r by lia.
  - cbn [pos_chars fmap list_fmap lookup list_lookup].
    rewrite IH by lia. rewrite Nat2Z.inj_succ.
    change (Z.pos p~0) with (2 * Z.pos p + Z.b2z false).
    by rewrite Z.testbit_succ_r by lia.
Qed.

Lemma wolfram_bit_high r k : 0 ≤ r → Z.log2 r < k → wolfram_bit r k = 0.
Proof.
  intros Hr Hk. unfold wolfram_bit. by rewrite Z.bits_above_log2 by lia.
Qed.

(** X2. For every rule number [r >= 0], also above 255, the array has
    [max 8 (log2 r + 1)] entries (8 for [r <= 255], more beyond), and entry
    [k] is bit [k] of [r]. *)
Theorem getRuleArray_nonnegative r (k : nat) :
  0 ≤ r →
  Z.of_nat (List.length (_getRuleArray r)) = Z.max 8 (Z.log2 r + 1) ∧
  ((k < List.length (_getRuleArray r))%nat →
   _getRuleArray r !! k = Some (JS.Num (wolfram_bit r (Z.of_nat k)))).
Proof.
  intros Hr. destruct r as [|p|p]; [| |lia].
  - split; [reflexivity|]. intros Hk. simpl in Hk.
    do 8 (destruct k as [|k]; [reflexivity|]). lia.
  - rewrite getRuleArray_pos. pose proof (pos_chars_length p) as Hlen.
    split.
    + rewrite length_app, length_fmap, length_replicate. lia.
    + intros Hk.
      destruct (decide (k < List.length (pos_chars p))%nat) as [Hlt|Hge].
      * rewrite lookup_app_l by (by rewrite length_fmap).
        by apply pos_chars_lookup.
      * rewrite length_app, length_fmap, length_replicate in Hk.
        rewrite lookup_app_r by (rewrite length_fmap; lia).
        rewrite lookup_replicate_2 by (rewrite length_fmap; lia).
        by rewrite wolfram_bit_high by lia.
Qed.

Lemma getRuleArray_nonnegative_witness :
  Z.of_nat (List.length (_getRuleArray 300)) = Z.max 8 (Z.log2 300 + 1) ∧
  ((8 < List.length (_getRuleArray 300))%nat →
   _getRuleArray 300 !! 8%nat
   = Some (JS.Num (wolfram_bit 300 (Z.of_nat 8)))).
Proof. apply (getRuleArray_nonnegative 300 8). lia. Defined.

(** ** Numbers that are no integers *)

Lemma is_integer_spec q : JS.is_integer q = true ↔ integer q.
Proof.
  unfold JS.is_integer, integer. split.
  - intros Hd%Pos.eqb_eq. exists (Qnum q). apply Qc_is_canon.
    destruct q as [[n d] Hc]. simpl in *. by subst d.
  - by intros [z ->].
Qed.

Lemma Array_not_integer q : ¬ integer q → JS.Array q = JS.Throw JS.RangeError.
Proof.
  intros Hq. unfold JS.Array.
  destruct (JS.is_integer q) eqn:E; [|done].
  by apply is_integer_spec in E.
Qed.

Lemma Array_negative z : z < 0 → JS.Array (Qc_of_Z z) = JS.Throw JS.RangeError.
Proof.
  intros Hz. unfold JS.Array, JS.is_integer. simpl.
  by rewrite (proj2 (Z.leb_gt 0 z)).
Qed.

Lemma eqb_true a b : JS.eqb a b = true → a = b.
Proof. intros H. by apply Qc_is_canon, Qeq_bool_iff. Qed.

Lemma ltb_spec a b : JS.ltb a b = true ↔ (a < b)%Qc.
Proof.
  unfold JS.ltb. rewrite negb_true_iff. split.
  - intros H. apply Qcnot_le_lt. intros Hle.
    apply Qle_bool_iff in Hle. congruence.
  - intros H. destruct (Qle_bool b a) eqn:E; [|done].
    apply Qle_bool_iff in E. by apply Qcle_not_lt in E.
Qed.

Lemma leb_0_false width : (0 < width)%Qc → JS.leb width 0 = false.
Proof.
  intros Hw. destruct (JS.leb width 0) eqn:E; [|done].
  apply Qle_bool_iff in E. by apply Qcle_not_lt in E.
Qed.

Lemma Qc_of_Z_plus a b : (Qc_of_Z a + Qc_of_Z b)%Qc = Qc_of_Z (a + b).
Proof.
  apply Qc_is_canon. unfold Qcplus, Q2Qc. simpl this.
  rewrite !Qred_correct. unfold Qeq. simpl. lia.
Qed.

Lemma minus_not_integer q n : ¬ integer q → ¬ integer (q - Qc_of_Z n)%Qc.
Proof.
  intros Hq [m Hm]. apply Hq. exists (m + n).
  rewrite <- Qc_of_Z_plus, <- Hm. ring.
Qed.

Lemma floor_half_nonneg d : (0 < d)%Qc → 0 ≤ JS.floor (d / 2)%Qc.
Proof.
  intros Hd. unfold JS.floor.
  change 0 with (Qfloor 0). apply Qfloor_resp_le.
  change (0 <= (d / 2)%Qc)%Q with (0 ≤ d / 2)%Qc.
  rewrite <- (Qcmult_0_l (/ 2)). unfold Qcdiv.
  apply Qcmult_le_compat_r; [by apply Qclt_le_weak|].
  by vm_compute.
Qed.

(** ** The constructor at a width that is no integer *)

Section fractional.
Context (σ : store) (r : Z) (wd : Qc).
Hypothesis Hr : 0 ≤ r ≤ 255.
Hypothesis Hpos : (0 < wd)%Qc.
Hypothesis Hfrac : ¬ integer wd.

Lemma constructor_fractional_none :
  constructor r wd None σ = JS.Throw JS.RangeError.
Proof.
  unfold constructor.
  rewrite !bool_decide_eq_false_2 by lia. cbn [orb].
  rewrite leb_0_false, bind_alloc by done.
  unfold _createInitialGeneration. rewrite Array_not_integer by done.
  reflexivity.
Qed.

Lemma eqb_length_fractional (cells : list JS.value) :
  JS.eqb (JS.length cells) wd = false.
Proof.
  destruct (JS.eqb (JS.length cells) wd) eqn:E; [|done].
  apply eqb_true in E. destruct Hfrac. by eexists.
Qed.

Lemma constructor_fractional_short (cells : list JS.value) :
  (JS.length cells < wd)%Qc →
  constructor r wd (Some cells) σ = JS.Throw JS.RangeError.
Proof.
  intros Hlt. unfold constructor.
  rewrite !bool_decide_eq_false_2 by lia. cbn [orb].
  rewrite leb_0_false, bind_alloc, bind_ret, bind_alloc by done.
  rewrite eqb_length_fractional. cbn [negb].
  rewrite (proj2 (ltb_spec _ _) Hlt).
  assert (Hd : (0 < wd - JS.length cells)%Qc).
  { apply Qclt_minus_iff in Hlt. exact Hlt. }
  rewrite filled_Array_of_Z, bind_lift_Ok by (by apply floor_half_nonneg).
  cbn beta. unfold JS.length at 2.
  rewrite Array_not_integer; [reflexivity|].
  by apply minus_not_integer, minus_not_integer.
Qed.

Lemma constructor_fractional_long (cells : list JS.value) :
  (wd < JS.length cells)%Qc →
  ∃ this σ',
    constructor r wd (Some cells) σ = JS.Ok (this, σ') ∧
    width this = wd ∧
    σ' !! rule this = Some (_getRuleArray r) ∧
    σ' !! generation this = Some (take (Z.to_nat (JS.floor wd)) cells).
Proof.
  intros Hlt. unfold constructor.
  rewrite !bool_decide_eq_false_2 by lia. cbn [orb].
  rewrite leb_0_false, bind_alloc, bind_ret, bind_alloc by done.
  rewrite eqb_length_fractional. cbn [negb].
  assert (JS.ltb (JS.length cells) wd = false) as ->.
  { destruct (JS.ltb (JS.length cells) wd) eqn:E; [|done].
    apply ltb_spec in E.
    destruct (Qclt_not_le _ _ E (Qclt_le_weak _ _ Hlt)). }
  rewrite bind_alloc. eexists _, _. split; [reflexivity|].
  cbn [width rule generation]. split; [done|].
  set (σ1 := <[fresh (dom σ) := _getRuleArray r]> σ).
  set (σ2 := <[fresh (dom σ1) := cells]> σ1).
  assert (H1 : σ1 !! fresh (dom σ) = Some (_getRuleArray r))
    by apply lookup_insert_eq.
  assert (H2 : σ2 !! fresh (dom σ) = Some (_getRuleArray r)).
  { unfold σ2. rewrite lookup_insert_ne; [done|].
    apply not_eq_sym. by apply (fresh_loc_ne σ1 _ _ H1). }
  split; [|apply lookup_insert_eq].
  rewrite lookup_insert_ne; [done|].
  apply not_eq_sym. by apply (fresh_loc_ne σ2 _ _ H2).
Qed.
End fractional.

Lemma nextGeneration_RangeError (σ : store) this :
  JS.Array (width this) = JS.Throw JS.RangeError →
  nextGeneration this σ = JS.Throw JS.RangeError.
Proof.
  intros H. unfold nextGeneration, nextGeneration_with. by rewrite H.
Qed.

Lemma half_not_integer : ¬ integer (Q2Qc (5 # 2)).
Proof. intros H%is_integer_spec. discriminate H. Qed.

(** X3. The constructor throws the rule-number error exactly when the rule
    number is outside [0,255], whatever the width, and the width error
    exactly when the rule number is inside and [width <= 0]: the rule number
    is checked first, and no other argument ever produces either error. *)
Theorem constructor_error_cases (σ : store) r width init :
  (constructor r width init σ = JS.Throw (JS.Error rule_error)
   ↔ r < 0 ∨ 255 < r) ∧
  (constructor r width init σ = JS.Throw (JS.Error width_error)
   ↔ 0 ≤ r ≤ 255 ∧ (width ≤ 0)%Qc).
Proof.
  split; [apply constructor_rule_error_iff | apply constructor_width_error_iff].
Qed.

(** X4. With a rule number in [0,255] and a positive width that is no
    integer, the constructor throws a [RangeError] when the initial
    generation is omitted or shorter than the width; when it is longer, the
    constructor returns an instance that keeps the fractional width and the
    first [floor(width)] cells. *)
Theorem constructor_fractional_width (σ : store) r wd :
  0 ≤ r ≤ 255 → (0 < wd)%Qc → ¬ integer wd →
  constructor r wd None σ = JS.Throw JS.RangeError ∧
  (∀ cells : list JS.value, (JS.length cells < wd)%Qc →
     constructor r wd (Some cells) σ = JS.Throw JS.RangeError) ∧
  (∀ cells : list JS.value, (wd < JS.length cells)%Qc →
     ∃ this σ',
       constructor r wd (Some cells) σ = JS.Ok (this, σ') ∧
       width this = wd ∧
       σ' !! generation this
       = Some (take (Z.to_nat (JS.floor wd)) cells)).
Proof.
  intros Hr Hpos Hfrac. split; [|split].
  - by apply constructor_fractional_none.
  - intros cells Hlt. by apply constructor_fractional_short.
  - intros cells Hlt.
    destruct (constructor_fractional_long σ r wd Hr Hpos Hfrac cells Hlt)
      as (this & σ' & Hc & Hw & _ & Hg).
    by exists this, σ'.
Qed.

Lemma constructor_fractional_width_witness :
  constructor 90 (Q2Qc (5 # 2)) None ∅ = JS.Throw JS.RangeError ∧
  (∀ cells : list JS.value, (JS.length cells < Q2Qc (5 # 2))%Qc →
     constructor 90 (Q2Qc (5 # 2)) (Some cells) ∅ = JS.Throw JS.RangeError) ∧
  (∀ cells : list JS.value, (Q2Qc (5 # 2) < JS.length cells)%Qc →
     ∃ this σ',
       constructor 90 (Q2Qc (5 # 2)) (Some cells) ∅ = JS.Ok (this, σ') ∧
       width this = Q2Qc (5 # 2) ∧
       σ' !! generation this
       = Some (take (Z.to_nat (JS.floor (Q2Qc (5 # 2)))) cells)).
Proof.
  apply (constructor_fractional_width ∅ 90 (Q2Qc (5 # 2)));
    [lia | reflexivity | apply half_not_integer].
Defined.

(** X5. An empty [initialGeneration] is not the same as none: the array
    [[]] is truthy, so the constructor (at a positive integer width below
    [2^32]) pads it to [width] dead cells and there is no live cell at
    all. *)
Theorem constructor_empty_initialGeneration (σ : store) r w :
  0 ≤ r ≤ 255 → 0 < w < 2 ^ 32 →
  ∃ this σ',
    constructor r (Qc_of_Z w) (Some []) σ = JS.Ok (this, σ') ∧
    σ' !! generation this = Some (zeros w).
Proof.
  intros Hr [Hw _].
  destruct (constructor_spec σ r w (Some []) Hr Hw)
    as (this & σ' & Hc & _ & _ & _ & Hg & _).
  exists this, σ'. split; [done|]. rewrite Hg. f_equal.
  unfold initial_cells. cbn [List.length]. change (Z.of_nat 0) with 0.
  rewrite (proj2 (Z.eqb_neq 0 w)), (proj2 (Z.ltb_lt 0 w)) by lia.
  rewrite Z.sub_0_r. unfold zeros. cbn [app]. rewrite <- replicate_add.
  f_equal.
  assert (0 ≤ w / 2 ≤ w)
    by (split; [apply Z.div_pos | apply Z.div_le_upper_bound]; lia).
  lia.
Qed.

Lemma constructor_empty_initialGeneration_witness :
  ∃ this σ',
    constructor 30 (Qc_of_Z 4) (Some []) ∅ = JS.Ok (this, σ') ∧
    σ' !! generation this = Some (zeros 4).
Proof. apply (constructor_empty_initialGeneration ∅ 30 4); lia. Defined.

(** X6. [_createInitialGeneration] on its own: for an integer width [z] with
    [1 <= z < 2^32] it returns [z] cells with the single 1 at [floor(z/2)];
    for the width 0 the assignment [gen[0] = 1] grows the empty array, and
    it returns the one cell [1]; for a negative width or one that is no
    integer [Array] throws a [RangeError]. *)
Theorem createInitialGeneration_cases width :
  (∀ z, width = Qc_of_Z z → 1 ≤ z < 2 ^ 32 →
     _createInitialGeneration width
     = JS.Ok (<[Z.to_nat (z / 2) := JS.Num 1]> (zeros z))) ∧
  (width = Qc_of_Z 0 → _createInitialGeneration width = JS.Ok [JS.Num 1]) ∧
  (¬ integer width ∨ (width < 0)%Qc →
     _createInitialGeneration width = JS.Throw JS.RangeError).
Proof.
  split; [|split].
  - intros z -> Hz. by rewrite createInitialGeneration_of_Z by lia.
  - by intros ->.
  - intros Hbad. unfold _createInitialGeneration.
    assert (JS.Array width = JS.Throw JS.RangeError) as ->; [|done].
    destruct (JS.is_integer width) eqn:E.
    + apply is_integer_spec in E. destruct E as [z ->].
      destruct Hbad as [Hn|Hneg]; [destruct Hn; by eexists|].
      apply Array_negative. unfold Qclt, Qlt in Hneg. simpl in Hneg. lia.
    + unfold JS.Array. by rewrite E.
Qed.

Lemma createInitialGeneration_cases_witness :
  _createInitialGeneration (Qc_of_Z 5)
  = JS.Ok (<[Z.to_nat (5 / 2) := JS.Num 1]> (zeros 5)) ∧
  _createInitialGeneration (Qc_of_Z 0) = JS.Ok [JS.Num 1] ∧
  _createInitialGeneration (Qc_of_Z (-3)) = JS.Throw JS.RangeError ∧
  _createInitialGeneration (Q2Qc (5 # 2)) = JS.Throw JS.RangeError.
Proof.
  split; [|split; [|split]].
  - apply (proj1 (createInitialGeneration_cases (Qc_of_Z 5)) 5);
      [reflexivity | lia].
  - apply (proj1 (proj2 (createInitialGeneration_cases (Qc_of_Z 0)))).
    reflexivity.
  - apply (proj2 (proj2 (createInitialGeneration_cases (Qc_of_Z (-3))))).
    right. reflexivity.
  - apply (proj2 (proj2 (createInitialGeneration_cases (Q2Qc (5 # 2))))).
    left. apply half_not_integer.
Defined.

(** X8. An instance of fractional width, which the constructor builds from a
    long enough initial generation, can be read but never stepped:
    [getCurrentGeneration] returns its cells, and [nextGeneration] throws a
    [RangeError] at [Array(this.width)]. *)
Theorem fractional_instance_cannot_step (σ : store) r wd cells :
  0 ≤ r ≤ 255 → (0 < wd)%Qc → ¬ integer wd →
  (wd < JS.length cells)%Qc →
  ∃ this σ',
    constructor r wd (Some cells) σ = JS.Ok (this, σ') ∧
    nextGeneration this σ' = JS.Throw JS.RangeError ∧
    ∃ l σ'',
      getCurrentGeneration this σ' = JS.Ok (l, σ'') ∧
      σ'' !! l = Some (take (Z.to_nat (JS.floor wd)) cells).
Proof.
  intros Hr Hpos Hfrac Hlt.
  destruct (constructor_fractional_long σ r wd Hr Hpos Hfrac cells Hlt)
    as (this & σ' & Hc & Hw & _ & Hg).
  exists this, σ'. split; [done|]. split.
  - apply nextGeneration_RangeError. rewrite Hw. by apply Array_not_integer.
  - eexists _, _. split; [by apply getCurrentGeneration_spec|].
    apply lookup_insert_eq.
Qed.

Lemma fractional_instance_cannot_step_witness :
  ∃ this σ',
    constructor 90 (Q2Qc (5 # 2)) (Some (bit <$> [1; 1; 1])) ∅
      = JS.Ok (this, σ') ∧
    nextGeneration this σ' = JS.Throw JS.RangeError ∧
    ∃ l σ'',
      getCurrentGeneration this σ' = JS.Ok (l, σ'') ∧
      σ'' !! l
      = Some (take (Z.to_nat (JS.floor (Q2Qc (5 # 2)))) (bit <$> [1; 1; 1])).
Proof.
  apply (fractional_instance_cannot_step ∅ 90 (Q2Qc (5 # 2))
           (bit <$> [1; 1; 1]));
    [lia | reflexivity | apply half_not_integer | reflexivity].
Defined.

(** ** Arrays that the methods leave alone *)

Lemma grows_ret {A} (x : A) : grows (mret x).
Proof. intros σ y σ' [= _ <-]. done. Qed.

Lemma grows_throw {A} e : grows (throw (A:=A) e).
Proof. by intros σ y σ'. Qed.

Lemma grows_lift {A} (r : JS.result A) : grows (lift r).
Proof. intros σ y σ'. unfold lift. destruct r; [|done]. by intros [= _ <-]. Qed.

Lemma grows_alloc arr : grows (alloc arr).
Proof. intros σ y σ' [= _ <-]. apply insert_fresh_subseteq. Qed.

Lemma grows_load l : grows (load l).
Proof.
  intros σ y σ'. unfold load. destruct (σ !! l); [|done]. by intros [= _ <-].
Qed.

Lemma grows_bind {A B} (m : M A) (k : A → M B) :
  grows m → (∀ x, grows (k x)) → grows (m ≫= k).
Proof.
  intros Hm Hk σ y σ'. unfold mbind, M_bind.
  destruct (m σ) as [[x σ1]|e] eqn:E; [|done].
  intros Hkx. etrans; [by eapply Hm | by eapply Hk].
Qed.

Lemma grows_constructor r width init : grows (constructor r width init).
Proof.
  unfold constructor.
  destruct (_ || _); [apply grows_throw|].
  destruct (JS.leb width 0); [apply grows_throw|].
  apply grows_bind; [apply grows_alloc|intros rule].
  apply grows_bind; [destruct init; [apply grows_ret|apply grows_lift]|].
  intros gen. apply grows_bind; [apply grows_alloc|intros l].
  destruct (negb _); [|apply grows_ret].
  destruct (JS.ltb _ _).
  - cbv zeta.
    apply grows_bind; [apply grows_lift|intros padding].
    apply grows_bind; [apply grows_lift|intros suffix].
    apply grows_bind; [apply grows_alloc|intros l']. apply grows_ret.
  - apply grows_bind; [apply grows_alloc|intros l']. apply grows_ret.
Qed.

Lemma grows_getCurrentGeneration this : grows (getCurrentGeneration this).
Proof.
  unfold getCurrentGeneration.
  apply grows_bind; [apply grows_load|intros arr; apply grows_alloc].
Qed.

(** A turn of the loop only writes the new array. *)
Lemma nextGeneration_body_frame this nextGen w i (σ σ' : store) :
  nextGeneration_body this nextGen w i σ = JS.Ok (tt, σ') →
  ∀ k, k ≠ nextGen → σ' !! k = σ !! k.
Proof.
  unfold nextGeneration_body, nextGeneration_body_with. unfold_monad.
  intros H k Hk. repeat case_match; simplify_eq.
  rewrite lookup_insert_ne; [done|by apply not_eq_sym].
Qed.

Lemma for_loop_frame this nextGen w n : ∀ i (σ σ' : store),
  for_loop n i (nextGeneration_body this nextGen w) σ = JS.Ok (tt, σ') →
  ∀ k, k ≠ nextGen → σ' !! k = σ !! k.
Proof.
  induction n as [|n IH]; intros i σ σ'; simpl.
  - by intros [= <-].
  - unfold mbind, M_bind.
    destruct (nextGeneration_body this nextGen w i σ) as [[[] σ1]|e] eqn:E;
      [|done].
    intros Hloop k Hk. rewrite (IH _ _ _ Hloop k Hk).
    by apply (nextGeneration_body_frame _ _ _ _ _ _ E).
Qed.

Lemma grows_nextGeneration this : grows (nextGeneration this).
Proof.
  intros σ [l this'] σ'. unfold nextGeneration, nextGeneration_with.
  fold nextGeneration_body.
  unfold mbind at 1, M_bind, lift.
  destruct (JS.Array (width this)) as [arr|e]; [|done].
  rewrite bind_alloc. unfold mbind, M_bind.
  destruct (for_loop _ _ _ _) as [[[] σ1]|e] eqn:E; [|done].
  intros [= _ _ <-]. apply map_subseteq_spec. intros k v Hk.
  rewrite (for_loop_frame _ _ _ _ _ _ _ E).
  - rewrite lookup_insert_ne; [done|]. apply not_eq_sym.
    by apply (fresh_loc_ne σ _ _ Hk).
  - by apply (fresh_loc_ne σ _ _ Hk).
Qed.

(** X7. Whatever their arguments, the constructor, [nextGeneration] and
    [getCurrentGeneration], when they return, have only added arrays to the
    heap: every array that existed before, and so the state of every other
    instance, is as it was. *)
Theorem methods_leave_other_arrays (σ σ' : store) :
  (∀ r width init this,
     constructor r width init σ = JS.Ok (this, σ') → σ ⊆ σ') ∧
  (∀ this result,
     nextGeneration this σ = JS.Ok (result, σ') → σ ⊆ σ') ∧
  (∀ this l,
     getCurrentGeneration this σ = JS.Ok (l, σ') → σ ⊆ σ').
Proof.
  split; [|split].
  - intros r width init this. apply grows_constructor.
  - intros this result. apply grows_nextGeneration.
  - intros this l. apply grows_getCurrentGeneration.
Qed.

Lemma methods_leave_other_arrays_witness :
  sample_store 30 [1; 0; 0]
  ⊆ <[3%positive := bit <$> [1; 0; 0]]> (sample_store 30 [1; 0; 0]).
Proof.
  apply (proj2 (proj2 (methods_leave_other_arrays (sample_store 30 [1; 0; 0])
           (<[3%positive := bit <$> [1; 0; 0]]> (sample_store 30 [1; 0; 0]))))
         (sample_instance 3) 3%positive).
  reflexivity.
Defined.

(** ** Steps on cells of any kind *)




Lemma neighborhoodIndex_left_undefined left middle right :
  left = JS.Undefined ∨ left = JS.NaN →
  neighborhoodIndex left middle right = JS.NaN.
Proof. intros [-> | ->]; reflexivity. Qed.

(** X10. A cell whose left neighbour holds [undefined] or [NaN] becomes
    [undefined]: the neighbourhood then reads as no binary number, the index
    into the rule array is [NaN], and so a bad cell spreads to the right by
    one cell at every step. *)
Theorem undefined_spreads_right (σ : store) this w R g i left :
  width this = Qc_of_Z w →
  σ !! rule this = Some R →
  σ !! generation this = Some g →
  Z.of_nat (List.length g) = w → 0 ≤ i < w →
  g !! Z.to_nat ((i - 1 + w) mod w) = Some left →
  left = JS.Undefined ∨ left = JS.NaN →
  ∃ l this' σ' g',
    nextGeneration this σ = JS.Ok ((l, this'), σ') ∧
    σ' !! generation this' = Some g' ∧
    g' !! Z.to_nat i = Some JS.Undefined.
Proof.
  intros Hw HR Hg Hlen Hi Hleft Hbad.
  eexists _, _, _, (next_cells R g w).
  split; [apply (nextGeneration_spec σ this w R g Hw ltac:(lia) HR Hg)|].
  split; [apply lookup_insert_eq|].
  rewrite next_cells_lookup, Z2Nat.id by lia. f_equal.
  destruct (next_cell_neighbours R g w i Hlen Hi)
    as (l' & m & r & Hl & _ & _ & ->).
  rewrite Hleft in Hl. injection Hl as <-.
  by rewrite neighborhoodIndex_left_undefined.
Qed.

Lemma undefined_spreads_right_witness :
  ∃ l this' σ' g',
    nextGeneration (sample_instance 3)
      (<[2%positive := [JS.Undefined; JS.Num 1; JS.Num 0]]>
         (sample_store 30 []))
      = JS.Ok ((l, this'), σ') ∧
    σ' !! generation this' = Some g' ∧
    g' !! Z.to_nat 1 = Some JS.Undefined.
Proof.
  apply (undefined_spreads_right
           (<[2%positive := [JS.Undefined; JS.Num 1; JS.Num 0]]>
              (sample_store 30 []))
           (sample_instance 3) 3 (_getRuleArray 30)
           [JS.Undefined; JS.Num 1; JS.Num 0] 1 JS.Undefined);
    try reflexivity; try lia. by left.
Defined.

(** ** The rule that is run *)

Lemma wolfram_bit_reverse8 r v :
  0 ≤ r ≤ 255 → 0 ≤ v ≤ 7 →
  wolfram_bit (reverse8 r) v = wolfram_bit r (7 - v).
Proof.
  intros Hr Hv.
  assert (Hall : forallb (λ r, forallb
            (λ v, wolfram_bit (reverse8 r) v =? wolfram_bit r (7 - v))
            (seqZ 0 8)) (seqZ 0 256) = true) by (vm_compute; reflexivity).
  rewrite forallb_forall in Hall.
  assert (Hin : In r (seqZ 0 256))
    by (apply list_elem_of_In, elem_of_seqZ; lia).
  apply Hall in Hin. rewrite forallb_forall in Hin.
  apply Z.eqb_eq, Hin, list_elem_of_In, elem_of_seqZ. lia.
Qed.

Lemma next_cells_reversed_wolfram r (gz : list Z) w :
  0 ≤ r ≤ 255 → bits (bit <$> gz) → Z.of_nat (List.length gz) = w →
  next_cells (_getRuleArray r) (bit <$> gz) w
  = bit <$> wolfram_step (reverse8 r) gz.
Proof.
  intros Hr Hb Hlen. apply list_eq. intros i.
  unfold wolfram_step. rewrite !list_lookup_fmap.
  destruct (decide (i < List.length gz)%nat) as [Hi|Hi].
  - rewrite next_cells_lookup, lookup_seq_lt by lia. simpl. f_equal.
    destruct (next_cell_reversed_bit r (bit <$> gz) w (Z.of_nat i) Hr Hb)
      as (l & m & r' & Hl & Hm & Hr' & ->);
      [by rewrite length_fmap | lia |].
    rewrite Hlen.
    assert (Hget : ∀ k b, (bit <$> gz) !! k = Some (JS.Num b) → gz !!! k = b).
    { intros k b Hk. rewrite list_lookup_fmap in Hk.
      destruct (gz !! k) as [b'|] eqn:E; [|done].
      injection Hk as <-. by apply list_lookup_total_correct. }
    rewrite (Hget _ _ Hl), (Hget _ _ Hm), (Hget _ _ Hr').
    assert (Hbit : ∀ k b, (bit <$> gz) !! k = Some (JS.Num b) → b = 0 ∨ b = 1).
    { intros k b Hk. unfold bits in Hb. rewrite Forall_lookup in Hb.
      destruct (Hb _ _ Hk) as [[= ->]|[= ->]]; auto. }
    unfold bit. f_equal. symmetry. apply wolfram_bit_reverse8; [done|].
    pose proof (triple_value_range l m r' (Hbit _ _ Hl) (Hbit _ _ Hm)
                  (Hbit _ _ Hr')). lia.
  - rewrite lookup_ge_None_2 by (rewrite next_cells_length; lia).
    by rewrite lookup_ge_None_2 by (rewrite length_seq; lia).
Qed.

(** X11. The rule that [nextGeneration] runs for the rule number [r] is
    Wolfram's rule number [reverse8 r], the number with the 8 bits of [r] in
    the opposite order: on a ring of bits the new generation is one
    generation of that rule. *)
Theorem nextGeneration_runs_reversed_rule (σ : store) this w r (gz : list Z) :
  0 ≤ r ≤ 255 →
  valid σ this w (_getRuleArray r) (bit <$> gz) →
  ∃ l this' σ',
    nextGeneration this σ = JS.Ok ((l, this'), σ') ∧
    σ' !! generation this'
    = Some (bit <$> wolfram_step (reverse8 r) gz).
Proof.
  intros Hr Hv.
  destruct (nextGeneration_valid σ this w _ _ Hv) as (l & Hs & _ & _).
  eexists l, _, _. split; [exact Hs|].
  cbn [generation set_generation]. rewrite lookup_insert_eq. f_equal.
  destruct Hv as [_ _ _ _ _ _ Hlen Hb].
  apply next_cells_reversed_wolfram; [done..|by rewrite length_fmap in Hlen].
Qed.

Lemma nextGeneration_runs_reversed_rule_witness :
  ∃ l this' σ',
    nextGeneration (sample_instance 5) (sample_store 110 [0; 1; 1; 0; 1])
      = JS.Ok ((l, this'), σ') ∧
    σ' !! generation this'
    = Some (bit <$> wolfram_step (reverse8 110) [0; 1; 1; 0; 1]).
Proof.
  apply (nextGeneration_runs_reversed_rule (sample_store 110 [0; 1; 1; 0; 1])
           (sample_instance 5) 5 110 [0; 1; 1; 0; 1]); [lia|].
  apply sample_valid; [lia | lia | reflexivity | solve_bits].
Defined.

Example reverse8_of_the_driver_rules :
  reverse8 90 = 90 ∧ reverse8 110 = 118 ∧ reverse8 60 = 60 ∧ reverse8 30 = 120.
Proof. repeat split; reflexivity. Qed.

(** X12. For a rule number whose 8 bits read the same in both directions
    (such as 90 and 60, but not 30 or 110) the step is one generation of
    Wolfram's rule of that very number. *)
Theorem nextGeneration_palindromic_rule (σ : store) this w r (gz : list Z) :
  0 ≤ r ≤ 255 → reverse8 r = r →
  valid σ this w (_getRuleArray r) (bit <$> gz) →
  ∃ l this' σ',
    nextGeneration this σ = JS.Ok ((l, this'), σ') ∧
    σ' !! generation this' = Some (bit <$> wolfram_step r gz).
Proof.
  intros Hr Hpal Hv.
  destruct (nextGeneration_valid σ this w _ _ Hv) as (l & Hs & _ & _).
  eexists l, _, _. split; [exact Hs|].
  cbn [generation set_generation]. rewrite lookup_insert_eq. f_equal.
  destruct Hv as [_ _ _ _ _ _ Hlen Hb].
  rewrite next_cells_reversed_wolfram with (w := w);
    [by rewrite Hpal | done | done | by rewrite length_fmap in Hlen].
Qed.

Lemma nextGeneration_palindromic_rule_witness :
  ∃ l this' σ',
    nextGeneration (sample_instance 5) (sample_store 60 [0; 1; 1; 0; 1])
      = JS.Ok ((l, this'), σ') ∧
    σ' !! generation this' = Some (bit <$> wolfram_step 60 [0; 1; 1; 0; 1]).
Proof.
  apply (nextGeneration_palindromic_rule (sample_store 60 [0; 1; 1; 0; 1])
           (sample_instance 5) 5 60 [0; 1; 1; 0; 1]);
    [lia | reflexivity |].
  apply sample_valid; [lia | lia | reflexivity | solve_bits].
Defined.

(** X13. On a ring of one cell the cell is its own left and right
    neighbour, so its neighbourhood reads 000 or 111: a dead cell becomes
    [rule[7]] and a live cell [rule[0]]. *)
Theorem nextGeneration_width_one (σ : store) this R c :
  valid σ this 1 R [JS.Num c] →
  ∃ l this' σ',
    nextGeneration this σ = JS.Ok ((l, this'), σ') ∧
    σ' !! generation this' = Some [JS.get R (JS.Num (7 - 7 * c))].
Proof.
  intros Hv.
  destruct (nextGeneration_valid σ this 1 _ _ Hv) as (l & Hs & _ & _).
  eexists l, _, _. split; [exact Hs|].
  cbn [generation set_generation]. rewrite lookup_insert_eq. f_equal.
  destruct Hv as [_ _ _ _ _ _ _ Hb].
  apply Forall_cons_1 in Hb as [[[= ->] | [= ->]] _]; reflexivity.
Qed.

Lemma nextGeneration_width_one_witness :
  ∃ l this' σ',
    nextGeneration (sample_instance 1) (sample_store 30 [1])
      = JS.Ok ((l, this'), σ') ∧
    σ' !! generation this'
    = Some [JS.get (_getRuleArray 30) (JS.Num (7 - 7 * 1))].
Proof.
  apply (nextGeneration_width_one (sample_store 30 [1]) (sample_instance 1)
           (_getRuleArray 30) 1).
  apply (sample_valid 30 1 [1]); [lia | lia | reflexivity | solve_bits].
Defined.

(** ** References over time *)

(** X14. On every well-formed instance, the reference that [nextGeneration]
    returns is the one the instance keeps as [this.generation]: any
    assignment [returned[i] = v] by the caller is an assignment to the
    current generation of the instance. *)
Theorem nextGeneration_result_is_shared (σ : store) this w R g :
  valid σ this w R g →
  ∃ l this' σ' g',
    nextGeneration this σ = JS.Ok ((l, this'), σ') ∧
    l = generation this' ∧
    σ' !! generation this' = Some g' ∧
    ∀ i v, ∃ σ'',
      write l i v σ' = JS.Ok (tt, σ'') ∧
      σ'' !! generation this' = Some (JS.set g' i v).
Proof.
  intros Hv.
  destruct (nextGeneration_valid σ this w _ _ Hv) as (l & Hs & _ & _).
  eexists l, _, _, (next_cells R g w). split; [exact Hs|].
  split; [done|]. cbn [generation set_generation].
  split; [apply lookup_insert_eq|]. intros i v. eexists. split.
  - apply write_at, lookup_insert_eq.
  - apply lookup_insert_eq.
Qed.

Lemma nextGeneration_result_is_shared_witness :
  ∃ l this' σ' g',
    nextGeneration (sample_instance 3) (sample_store 30 [1; 0; 0])
      = JS.Ok ((l, this'), σ') ∧
    l = generation this' ∧
    σ' !! generation this' = Some g' ∧
    ∀ i v, ∃ σ'',
      write l i v σ' = JS.Ok (tt, σ'') ∧
      σ'' !! generation this' = Some (JS.set g' i v).
Proof.
  apply (nextGeneration_result_is_shared (sample_store 30 [1; 0; 0])
           (sample_instance 3) 3 (_getRuleArray 30) (bit <$> [1; 0; 0])).
  apply sample_valid; [lia | lia | reflexivity | solve_bits].
Defined.

Lemma generation_after_succ R w g n :
  generation_after R w g (S n)
  = generation_after R w (next_cells R g w) n.
Proof.
  unfold generation_after.
  exact (Nat.iter_succ_r n (λ g, next_cells R g w) g).
Qed.

(** [n] steps from a well-formed instance: what the instance then holds,
    and that the arrays of before are still there. *)
Lemma steps_generation n : ∀ (σ : store) this w R g,
  valid σ this w R g →
  ∃ this' σ',
    steps n this σ = JS.Ok (this', σ') ∧
    valid σ' this' w R (generation_after R w g n) ∧
    σ ⊆ σ'.
Proof.
  induction n as [|n IH]; intros σ this w R g Hv.
  - exists this, σ. split; [reflexivity|]. by split.
  - destruct (nextGeneration_valid σ this w R g Hv) as (l & Hs & Hl & Hv').
    destruct (IH _ _ _ _ _ Hv') as (this' & σ' & Hsteps & Hv'' & Hsub).
    exists this', σ'. rewrite generation_after_succ. split; [|split].
    + simpl steps. unfold mbind, M_bind. by rewrite Hs.
    + done.
    + etrans; [|exact Hsub]. by apply insert_subseteq.
Qed.

(** X15. Later steps never write into an array of an earlier generation:
    the array that one call of [nextGeneration] returned still holds that
    generation after any number [n] of further calls, while the instance has
    moved on by [n] generations; the array of the generation before the
    call is kept as well. *)
Theorem earlier_generations_survive (σ : store) this w R g :
  valid σ this w R g →
  ∃ l this' σ',
    nextGeneration this σ = JS.Ok ((l, this'), σ') ∧
    ∀ n, ∃ this'' σ'',
      steps n this' σ' = JS.Ok (this'', σ'') ∧
      σ'' !! l = Some (next_cells R g w) ∧
      σ'' !! generation this = Some g ∧
      σ'' !! generation this''
      = Some (generation_after R w (next_cells R g w) n).
Proof.
  intros Hv.
  destruct (nextGeneration_valid σ this w _ _ Hv) as (l & Hs & Hl & Hv').
  eexists l, _, _. split; [exact Hs|]. intros n.
  destruct (steps_generation n _ _ _ _ _ Hv') as (this'' & σ'' & Hn & Hv'' & Hsub).
  exists this'', σ''. split; [done|].
  rewrite map_subseteq_spec in Hsub. split; [|split].
  - apply Hsub, lookup_insert_eq.
  - apply Hsub. rewrite lookup_insert_ne; [by destruct Hv|].
    intros ->. destruct Hv. congruence.
  - by destruct Hv''.
Qed.

Lemma earlier_generations_survive_witness :
  ∃ l this' σ',
    nextGeneration (sample_instance 3) (sample_store 30 [1; 0; 0])
      = JS.Ok ((l, this'), σ') ∧
    ∀ n, ∃ this'' σ'',
      steps n this' σ' = JS.Ok (this'', σ'') ∧
      σ'' !! l = Some (next_cells (_getRuleArray 30) (bit <$> [1; 0; 0]) 3) ∧
      σ'' !! generation (sample_instance 3) = Some (bit <$> [1; 0; 0]) ∧
      σ'' !! generation this''
      = Some (generation_after (_getRuleArray 30) 3
                (next_cells (_getRuleArray 30) (bit <$> [1; 0; 0]) 3) n).
Proof.
  apply (earlier_generations_survive (sample_store 30 [1; 0; 0])
           (sample_instance 3) 3 (_getRuleArray 30) (bit <$> [1; 0; 0])).
  apply sample_valid; [lia | lia | reflexivity | solve_bits].
Defined.

(** X16. Two calls of [getCurrentGeneration] in a row return two different
    references to equal cells, both different from the instance's own
    array; an assignment through the first changes neither the second copy
    nor the current generation of the instance. *)
Theorem getCurrentGeneration_twice (σ : store) this g :
  σ !! generation this = Some g →
  ∃ l1 σ1 l2 σ2,
    getCurrentGeneration this σ = JS.Ok (l1, σ1) ∧
    getCurrentGeneration this σ1 = JS.Ok (l2, σ2) ∧
    l1 ≠ l2 ∧ l1 ≠ generation this ∧ l2 ≠ generation this ∧
    σ2 !! l1 = Some g ∧ σ2 !! l2 = Some g ∧
    ∀ i v, ∃ σ3,
      write l1 i v σ2 = JS.Ok (tt, σ3) ∧
      σ3 !! l1 = Some (JS.set g i v) ∧
      σ3 !! l2 = Some g ∧
      σ3 !! generation this = Some g.
Proof.
  intros Hg.
  set (l1 := fresh (dom σ)). set (σ1 := <[l1 := g]> σ).
  set (l2 := fresh (dom σ1)). set (σ2 := <[l2 := g]> σ1).
  assert (H1 : σ1 !! l1 = Some g) by apply lookup_insert_eq.
  assert (Hg1 : σ1 !! generation this = Some g).
  { unfold σ1. rewrite lookup_insert_ne; [done|].
    apply not_eq_sym. by apply (fresh_loc_ne σ _ _ Hg). }
  assert (Hn12 : l1 ≠ l2) by apply (fresh_loc_ne σ1 _ _ H1).
  assert (Hn1 : l1 ≠ generation this).
  { apply not_eq_sym. by apply (fresh_loc_ne σ _ _ Hg). }
  assert (Hn2 : l2 ≠ generation this).
  { apply not_eq_sym. by apply (fresh_loc_ne σ1 _ _ Hg1). }
  assert (H21 : σ2 !! l1 = Some g).
  { unfold σ2. by rewrite lookup_insert_ne by done. }
  exists l1, σ1, l2, σ2.
  split; [by apply getCurrentGeneration_spec|].
  split; [by apply getCurrentGeneration_spec|].
  repeat (split; [done|]). split; [apply lookup_insert_eq|].
  intros i v. eexists. split; [by apply write_at|].
  split; [apply lookup_insert_eq|].
  rewrite !lookup_insert_ne by done. split; [apply lookup_insert_eq|].
  unfold σ2. by rewrite lookup_insert_ne by done.
Qed.

Lemma getCurrentGeneration_twice_witness :
  ∃ l1 σ1 l2 σ2,
    getCurrentGeneration (sample_instance 3) (sample_store 30 [1; 0; 0])
      = JS.Ok (l1, σ1) ∧
    getCurrentGeneration (sample_instance 3) σ1 = JS.Ok (l2, σ2) ∧
    l1 ≠ l2 ∧ l1 ≠ generation (sample_instance 3) ∧
    l2 ≠ generation (sample_instance 3) ∧
    σ2 !! l1 = Some (bit <$> [1; 0; 0]) ∧
    σ2 !! l2 = Some (bit <$> [1; 0; 0]) ∧
    ∀ i v, ∃ σ3,
      write l1 i v σ2 = JS.Ok (tt, σ3) ∧
      σ3 !! l1 = Some (JS.set (bit <$> [1; 0; 0]) i v) ∧
      σ3 !! l2 = Some (bit <$> [1; 0; 0]) ∧
      σ3 !! generation (sample_instance 3) = Some (bit <$> [1; 0; 0]).
Proof.
  apply (getCurrentGeneration_twice (sample_store 30 [1; 0; 0])
           (sample_instance 3) (bit <$> [1; 0; 0])).
  reflexivity.
Defined.

(** ** Printing *)

Lemma render_fmap (g : list JS.value) :
  render g = (λ v, if decide (v = JS.Num 1) then block else space) <$> g.
Proof.
  unfold render. induction g as [|v g IH]; [done|].
  cbn [fmap list_fmap concat]. fold (fmap glyph g). rewrite IH.
  unfold glyph. by destruct (decide (v = JS.Num 1)).
Qed.

Lemma render_length g : List.length (render g) = List.length g.
Proof. by rewrite render_fmap, length_fmap. Qed.

Lemma printGeneration_at (σ : store) this g (c : console) :
  σ !! generation this = Some g →
  printGeneration this c σ = (c ++ [render g], JS.Ok (tt, σ)).
Proof.
  intros Hg. unfold printGeneration, mbind, IO_bind, liftM, load.
  by rewrite Hg.
Qed.

(** X17. On a generation that holds no [undefined], [printGeneration] logs
    exactly one line and changes nothing else.  The line has one character
    per cell, a full block where the cell is the number 1 and a space for
    every other value, whether 0, another number or [NaN]. *)
Theorem printGeneration_line (σ : store) this g (c : console) :
  σ !! generation this = Some g →
  JS.Undefined ∉ g →
  ∃ line,
    printGeneration this c σ = (c ++ [line], JS.Ok (tt, σ)) ∧
    List.length line = List.length g ∧
    ∀ (i : nat) v, g !! i = Some v →
      line !! i = Some (if decide (v = JS.Num 1) then block else space).
Proof.
  intros Hg _. exists (render g).
  split; [by apply printGeneration_at|]. split; [apply render_length|].
  intros i v Hv. by rewrite render_fmap, list_lookup_fmap, Hv.
Qed.

Lemma printGeneration_line_witness :
  ∃ line,
    printGeneration (sample_instance 3)
      [] (<[2%positive := [JS.Num 1; JS.Num 2; JS.NaN]]>
            (sample_store 30 []))
    = ([] ++ [line],
       JS.Ok (tt, <[2%positive := [JS.Num 1; JS.Num 2; JS.NaN]]>
                    (sample_store 30 []))) ∧
    List.length line = List.length [JS.Num 1; JS.Num 2; JS.NaN] ∧
    ∀ (i : nat) v, [JS.Num 1; JS.Num 2; JS.NaN] !! i = Some v →
      line !! i = Some (if decide (v = JS.Num 1) then block else space).
Proof.
  apply (printGeneration_line
           (<[2%positive := [JS.Num 1; JS.Num 2; JS.NaN]]>
              (sample_store 30 []))
           (sample_instance 3) [JS.Num 1; JS.Num 2; JS.NaN] []).
  - reflexivity.
  - rewrite !not_elem_of_cons. repeat split; try done. apply not_elem_of_nil.
Defined.

(** X18. On generations of bits the printed line loses nothing: two
    generations of cells 0 and 1 that print as the same line are equal. *)
Theorem render_bits_injective g1 g2 :
  bits g1 → bits g2 → render g1 = render g2 → g1 = g2.
Proof.
  rewrite !render_fmap. intros Hb1. revert g2.
  induction Hb1 as [|v1 g1 Hv1 _ IH]; intros g2 Hb2 Heq.
  - by destruct g2.
  - destruct Hb2 as [|v2 g2 Hv2 Hb2]; [done|].
    cbn [fmap list_fmap] in Heq. injection Heq as Hhd Htl.
    f_equal; [|by apply IH].
    destruct Hv1 as [-> | ->], Hv2 as [-> | ->]; done.
Qed.

Lemma render_bits_injective_witness :
  bit <$> [1; 0; 1] = bit <$> [1; 0; 1].
Proof.
  apply (render_bits_injective (bit <$> [1; 0; 1]) (bit <$> [1; 0; 1]));
    [unfold bits; solve_bits | unfold bits; solve_bits | reflexivity].
Defined.

(** ** The driver *)

Lemma IO_bind_log {A} line (k : unit → IO A) (c : console) (σ : store) :
  (console_log line ≫= k) c σ = k tt (c ++ [line]) σ.
Proof. reflexivity. Qed.

Lemma IO_bind_liftM_Ok {A B} (m : M A) (k : A → IO B) (c : console)
    (σ σ' : store) x :
  m σ = JS.Ok (x, σ') → (liftM m ≫= k) c σ = k x c σ'.
Proof. intros H. unfold mbind, IO_bind, liftM. by rewrite H. Qed.

Lemma IO_bind_liftM_Throw {A B} (m : M A) (k : A → IO B) (c : console)
    (σ : store) e :
  m σ = JS.Throw e → (liftM m ≫= k) c σ = (c, JS.Throw e).
Proof. intros H. unfold mbind, IO_bind, liftM. by rewrite H. Qed.

Lemma IO_bind_printGeneration {A} this g (k : unit → IO A) (c : console)
    (σ : store) :
  σ !! generation this = Some g →
  (printGeneration this ≫= k) c σ = k tt (c ++ [render g]) σ.
Proof.
  intros Hg. unfold mbind at 1, IO_bind. by rewrite (printGeneration_at σ this g).
Qed.

(** The rows of the generations [first], ..., [first + n - 1] after [g]. *)
Lemma run_loop_rows n : ∀ (c : console) (σ : store) ca w R g,
  valid σ ca w R g →
  ∃ ca' σ',
    run_loop n ca c σ
    = (c ++ (render <$> (generation_after R w g <$> seq 1 n)),
       JS.Ok (ca', σ')).
Proof.
  induction n as [|n IH]; intros c σ ca w R g Hv.
  - exists ca, σ. simpl. by rewrite app_nil_r.
  - destruct (nextGeneration_valid σ ca w R g Hv) as (l & Hs & _ & Hv').
    cbn [run_loop]. rewrite (IO_bind_liftM_Ok _ _ _ _ _ _ Hs).
    cbn [snd].
    rewrite (IO_bind_printGeneration _ (next_cells R g w))
      by (by destruct Hv').
    destruct (IH (c ++ [render (next_cells R g w)]) _ _ _ _ _ Hv')
      as (ca' & σ' & ->).
    exists ca', σ'. f_equal. rewrite <- app_assoc. f_equal.
    cbn [seq fmap list_fmap app]. f_equal.
    rewrite <- (fmap_S_seq 1 n), <- !list_fmap_compose.
    apply list_fmap_ext. intros _ k _. unfold compose.
    by rewrite generation_after_succ.
Qed.

Lemma generation_after_length R w g k :
  0 ≤ w → Z.of_nat (List.length g) = w →
  Z.of_nat (List.length (generation_after R w g k)) = w.
Proof.
  intros Hw Hg. destruct k as [|k]; [done|].
  unfold generation_after. rewrite Nat.iter_succ, next_cells_length. lia.
Qed.

(** X19. [runAutomaton(rule, width, generations)] with a rule number in
    [0,255], a positive width below [2^32] and a number of generations of
    magnitude below [2^53] returns normally and logs, in this order:
    the line that names its arguments, the line "Initial Generation:", one
    row for the initial generation (the single seed) and one for each of the
    [generations] steps (none when [generations <= 0]), and the end line.
    Every row has [width] characters. *)
Theorem runAutomaton_output (c : console) (σ : store) rule width generations :
  0 ≤ rule ≤ 255 → 0 < width < 2 ^ 32 → Z.abs generations < 2 ^ 53 →
  let rows :=
    render <$> (generation_after (_getRuleArray rule) width
                  (initial_cells width None)
                <$> seq 0 (S (Z.to_nat generations))) in
  (∃ σ',
     runAutomaton rule width generations c σ
     = (c ++ [running_line rule width generations; initial_line]
          ++ rows ++ [end_line],
        JS.Ok (tt, σ'))) ∧
  List.length rows = S (Z.to_nat generations) ∧
  ∀ row, row ∈ rows → Z.of_nat (List.length row) = width.
Proof.
  intros Hr Hw Hg rows. split; [|split].
  - destruct (constructor_valid σ rule width None Hr) as (ca & σ0 & Hc & Hv);
      [lia | done |].
    unfold runAutomaton. rewrite IO_bind_log.
    rewrite (IO_bind_liftM_Ok _ _ _ _ _ _ Hc), IO_bind_log.
    rewrite (IO_bind_printGeneration _ (initial_cells width None))
      by (by destruct Hv).
    destruct (run_loop_rows (Z.to_nat generations)
                (((c ++ [running_line rule width generations])
                    ++ [initial_line]) ++ [render (initial_cells width None)])
                σ0 ca width _ _ Hv) as (ca' & σ' & Hloop).
    exists σ'. unfold mbind, IO_bind. rewrite Hloop.
    unfold console_log, rows. cbn [seq fmap list_fmap].
    rewrite <- !app_assoc. reflexivity.
  - unfold rows. by rewrite !length_fmap, length_seq.
  - intros row (g & -> & (k & -> & _)%list_elem_of_fmap)%list_elem_of_fmap.
    rewrite render_length. apply generation_after_length; [lia|].
    apply initial_cells_length. lia.
Qed.

Lemma runAutomaton_output_witness :
  let rows :=
    render <$> (generation_after (_getRuleArray 90) 7 (initial_cells 7 None)
                <$> seq 0 (S (Z.to_nat 2))) in
  (∃ σ',
     runAutomaton 90 7 2 [] ∅
     = ([] ++ [running_line 90 7 2; initial_line] ++ rows ++ [end_line],
        JS.Ok (tt, σ'))) ∧
  List.length rows = S (Z.to_nat 2) ∧
  ∀ row, row ∈ rows → Z.of_nat (List.length row) = 7.
Proof. apply (runAutomaton_output [] ∅ 90 7 2); lia. Defined.

Example runAutomaton_90_7_2 :
  (runAutomaton 90 7 2 [] ∅).1
  = [running_line 90 7 2; initial_line;
     [space; space; space; block; space; space; space];
     [space; space; block; space; block; space; space];
     [space; block; space; space; space; block; space];
     end_line].
Proof. vm_compute. reflexivity. Qed.

(** The file as a whole: the three runs return normally and log
    24 + 44 + 64 lines. *)
Example main_output :
  ∃ lines σ',
    main [] ∅ = (lines, JS.Ok (tt, σ')) ∧ List.length lines = 132%nat.
Proof. eexists _, _. split; vm_compute; reflexivity. Qed.

Lemma Qc_of_Z_nonpositive z : z ≤ 0 → (Qc_of_Z z ≤ 0)%Qc.
Proof. intros Hz. unfold Qcle, Qle. simpl. lia. Qed.

(** X20. [runAutomaton] with integer arguments of magnitude below [2^53]
    that the constructor rejects logs the line that names its arguments and
    then throws the constructor's error, the rule-number error taking
    precedence; nothing else is logged. *)
Theorem runAutomaton_rejected (c : console) (σ : store) rule width generations :
  Z.abs rule < 2 ^ 53 → Z.abs width < 2 ^ 53 →
  Z.abs generations < 2 ^ 53 →
  (rule < 0 ∨ 255 < rule →
   runAutomaton rule width generations c σ
   = (c ++ [running_line rule width generations],
      JS.Throw (JS.Error rule_error))) ∧
  (0 ≤ rule ≤ 255 → width ≤ 0 →
   runAutomaton rule width generations c σ
   = (c ++ [running_line rule width generations],
      JS.Throw (JS.Error width_error))).
Proof.
  intros _ _ _. split.
  - intros Hr. unfold runAutomaton. rewrite IO_bind_log.
    by rewrite (IO_bind_liftM_Throw _ _ _ _ _
                  (constructor_rule_error σ rule _ None Hr)).
  - intros Hr Hw. unfold runAutomaton. rewrite IO_bind_log.
    by rewrite (IO_bind_liftM_Throw _ _ _ _ _
                  (constructor_width_error σ rule _ None Hr
                     (Qc_of_Z_nonpositive width Hw))).
Qed.

Lemma runAutomaton_rejected_witness :
  runAutomaton 256 10 5 [] ∅
  = ([] ++ [running_line 256 10 5], JS.Throw (JS.Error rule_error)) ∧
  runAutomaton 90 0 5 [] ∅
  = ([] ++ [running_line 90 0 5], JS.Throw (JS.Error width_error)).
Proof.
  split.
  - apply (proj1 (runAutomaton_rejected [] ∅ 256 10 5 ltac:(lia) ltac:(lia)
                    ltac:(lia))). lia.
  - apply (proj2 (runAutomaton_rejected [] ∅ 90 0 5 ltac:(lia) ltac:(lia)
                    ltac:(lia))); lia.
Defined.
